(** * The MI2 protocol engine of vscode-amiga-debug

    A shallow embedding of the GDB/MI backend class [MI2] (the source
    file that imports [./backend] and [./mi_parse]): the line classifier,
    the stdout demultiplexer, the command correlator, the event router
    and the breakpoint-insertion command.

    Conventions of the embedding.
    - JavaScript strings are [string]; the code only ever inspects
      ASCII characters of them.
    - An integer-valued JavaScript number is an [N].  The token counter
      is incremented with the rounding of an IEEE double written out
      (see [js_incr]); decimal printing is [pretty], which is what
      [Number.prototype.toString] yields below 10^21.
    - The engine's fields are a record [MI2]; a method is a function in
      the monad [M], which threads the engine state and collects the
      observable effects (events emitted, lines written to the
      subprocess, promise settlements) in order. *)

From stdpp Require Import gmap strings list pretty.
From Stdlib Require Import NArith Ascii.

Local Open Scope string_scope.
Local Open Scope list_scope.
Local Open Scope N_scope.

(** ** Regular expressions

    The three regular-expression literals of the source are kept as
    syntax and run by a backtracking matcher that follows the priority
    order of the JavaScript one: the left alternative first, greedy
    repetition first. *)

Module Regex.

Inductive regex : Type :=
| Bol                                (* ^ *)
| Class (p : ascii → bool)           (* [...] or \d *)
| Str (s : string)                   (* a literal *)
| Cat (r1 r2 : regex)
| Or (r1 r2 : regex)
| StarC (p : ascii → bool).          (* c* for a character class c *)

Definition is_digit (c : ascii) : bool :=
  let n := N_of_ascii c in (48 <=? n) && (n <=? 57).

Fixpoint one_of (set : string) (c : ascii) : bool :=
  match set with
  | EmptyString => false
  | String d set' => if Ascii.eqb c d then true else one_of set' c
  end.

Fixpoint strip_prefix (p s : string) : option string :=
  match p, s with
  | EmptyString, _ => Some s
  | String a p', String b s' => if Ascii.eqb a b then strip_prefix p' s' else None
  | String _ _, EmptyString => None
  end.

(** [k pos rest] is the continuation: [pos] is the offset of [rest] in
    the input.  The result is the offset at which the match ends. *)
Fixpoint star_class (p : ascii → bool) (pos : nat) (s : string)
    (k : nat → string → option nat) : option nat :=
  match s with
  | String c s' =>
      if p c then
        match star_class p (S pos) s' k with
        | Some e => Some e
        | None => k pos s
        end
      else k pos s
  | EmptyString => k pos s
  end.

Fixpoint run (r : regex) (pos : nat) (s : string)
    (k : nat → string → option nat) : option nat :=
  match r with
  | Bol => if Nat.eqb pos 0 then k pos s else None
  | Class p =>
      match s with
      | String c s' => if p c then k (S pos) s' else None
      | EmptyString => None
      end
  | Str t =>
      match strip_prefix t s with
      | Some s' => k (pos + String.length t)%nat s'
      | None => None
      end
  | Cat r1 r2 => run r1 pos s (λ pos' s', run r2 pos' s' k)
  | Or r1 r2 =>
      match run r1 pos s k with
      | Some e => Some e
      | None => run r2 pos s k
      end
  | StarC p => star_class p pos s k
  end.

Definition match_at (r : regex) (pos : nat) (s : string) : option nat :=
  run r pos s (λ e _, Some e).

(** The search of [RegExp.prototype.exec] without the [g] flag: the
    leftmost start offset at which the expression matches. *)
Fixpoint search (r : regex) (pos : nat) (s : string) : option (nat * nat) :=
  match match_at r pos s with
  | Some e => Some (pos, e)
  | None =>
      match s with
      | String _ s' => search r (S pos) s'
      | EmptyString => None
      end
  end.

(** [exec r s] is [r.exec(s)]: [None] is [null], [Some m] is the array
    whose element [0] is the matched text [m]. *)
Definition exec (r : regex) (s : string) : option string :=
  match search r 0 s with
  | Some (b, e) => Some (String.substring b (e - b) s)
  | None => None
  end.

(** [r.exec(s)] used as a condition: [null] is falsy. *)
Definition found {A} (o : option A) : bool :=
  match o with
  | Some _ => true
  | None => false
  end.

End Regex.

Import Regex.

(** [const nonOutput = /^(?:\d*|undefined)[\*\+\=]|[\~\@\&\^]/] *)
Definition nonOutput : regex :=
  Or (Cat Bol (Cat (Or (StarC is_digit) (Str "undefined")) (Class (one_of "*+="))))
     (Class (one_of "~@&^")).

(** [const gdbMatch = /(?:\d*|undefined)\(gdb\)/] *)
Definition gdbMatch : regex :=
  Cat (Or (StarC is_digit) (Str "undefined")) (Str "(gdb)").

(** [const numRegex = /\d+/] *)
Definition numRegex : regex := Cat (Class is_digit) (StarC is_digit).

Definition couldBeOutput (line : string) : bool :=
  match exec nonOutput line with
  | Some _ => false
  | None => true
  end.

(** [export function escape(str)]: every backslash is doubled, then
    every double quote gets a backslash in front. *)
Fixpoint replace_char (c : ascii) (by_ : string) (s : string) : string :=
  match s with
  | EmptyString => EmptyString
  | String d s' =>
      if Ascii.eqb d c then by_ +:+ replace_char c by_ s'
      else String d (replace_char c by_ s')
  end.

(** The characters that cannot be written inside a string literal. *)
Definition DQ : string := String "034"%char EmptyString.
Definition NL : string := String "010"%char EmptyString.

Definition escape (str : string) : string :=
  replace_char "034"%char ("\" +:+ DQ) (replace_char "\"%char "\\" str).

(** ** JavaScript values and string primitives *)

(** [x || d] where [x] is [undefined] or a string: the empty string is
    falsy as well. *)
Definition js_or (x : option string) (d : string) : string :=
  match x with
  | Some (String c s) => String c s
  | Some EmptyString | None => d
  end.

(** [if (x)] for the same kind of value. *)
Definition truthy (x : option string) : bool :=
  match x with
  | Some (String _ _) => true
  | Some EmptyString | None => false
  end.

(** ["text" + x]: [undefined] prints as that word. *)
Definition js_str (x : option string) : string := default "undefined" x.

(** [n++] on a number that holds an integer: a double has 53 bits of
    mantissa, so 2^53 + 1 rounds back (to even) to 2^53.  Exact for
    every value the counter can take, which are 1 .. 2^53. *)
Definition MAX_SAFE : N := 2 ^ 53.

Definition js_incr (n : N) : N := if n <? MAX_SAFE then n + 1 else n.

(** [parseInt(s)] for a string [s] of decimal digits (what [numRegex]
    lets through): its value, the exact one. The code's number is a
    double: up to 2^53 it is this value and prints as its decimal
    digits, beyond it is rounded; a statement that prints the value
    carries that bound. *)
Definition digit_value (c : ascii) : N := N_of_ascii c - 48.

Fixpoint parseInt_from (acc : N) (s : string) : N :=
  match s with
  | String c s' => if is_digit c then parseInt_from (10 * acc + digit_value c) s' else acc
  | EmptyString => acc
  end.

Definition parseInt (s : string) : N := parseInt_from 0 s.

(** [s.lastIndexOf(c)]: [None] is -1. *)
Fixpoint lastIndexOf (c : ascii) (s : string) : option nat :=
  match s with
  | EmptyString => None
  | String d s' =>
      match lastIndexOf c s' with
      | Some i => Some (S i)
      | None => if Ascii.eqb d c then Some 0%nat else None
      end
  end.

(** [s.substr(i)] *)
Definition substr_from (i : nat) (s : string) : string :=
  String.substring i (String.length s - i) s.

(** [s.split(c)]: never empty, the pieces hold no [c]. *)
Fixpoint split (c : ascii) (s : string) : list string :=
  match s with
  | EmptyString => [EmptyString]
  | String d s' =>
      if Ascii.eqb d c then EmptyString :: split c s'
      else match split c s' with
           | piece :: pieces => String d piece :: pieces
           | [] => [String d EmptyString]
           end
  end.

Fixpoint last_char (s : string) : option ascii :=
  match s with
  | EmptyString => None
  | String c EmptyString => Some c
  | String _ s' => last_char s'
  end.

Definition first_char (s : string) : option ascii :=
  match s with
  | EmptyString => None
  | String c _ => Some c
  end.

(** ** Parse results

    Modelled from the spec: the [MINode] class of [./mi_parse], which is
    not among the sources.  The spec's ProtocolRecord has an optional
    token, a result class present only on result records, a sequence of
    out-of-band records and the stream text attached before resolution;
    an OutOfBandRecord has a kind, an optional async class and a
    content.  The field names are the ones the engine reads.  The two
    accessor methods [result(path)] and [record(path)] are function
    fields: they look a named value up in the result record and in the
    async record, and give [undefined] or, for the fields the engine
    asks for ([msg], [reason], [exit-code], [id], [group-id]), the
    string the debugger sent. *)
Record OutOfBandRecord : Type := {
  isStream : bool;
  type : string;                 (* exec, status, notify; console, target, log *)
  asyncClass : option string;
  content : string
}.

Record ResultRecords : Type := {
  resultClass : string
}.

Record MINode : Type := {
  token : option N;
  outOfBandRecord : list OutOfBandRecord;
  resultRecords : option ResultRecords;
  node_output : list string;
  result : string → option string;
  record : string → option string
}.

(** [parsed.output = out] *)
Definition set_node_output (out : list string) (n : MINode) : MINode :=
  {| token := token n; outOfBandRecord := outOfBandRecord n;
     resultRecords := resultRecords n; node_output := out;
     result := result n; record := record n |}.

(** [node.resultRecords && node.resultRecords.resultClass === "error"] *)
Definition is_error (n : MINode) : bool :=
  match resultRecords n with
  | Some r => String.eqb (resultClass r) "error"
  | None => false
  end.

(** Modelled from the spec: the [MIError] class of [./backend], which is
    not among the sources: a failure carrying the debugger-reported
    message and the original command text. *)
Record MIError : Type := {
  message : string;
  source : string
}.

(** ** Effects, engine state and the engine monad *)

(** A promise made by [sendCommand] is named by its rank among the
    promises the engine has made. *)
Definition Promise : Type := nat.

(** [Number(x)] is kept as written: no property here depends on the
    number it makes. *)
Inductive JSNumber : Type :=
| NumberOf (x : option string).

(** The arguments of [this.emit(name, ...)]. *)
Inductive EventArgs : Type :=
| NoArgs
| MsgArgs (channel text : string)               (* emit("msg", type, text) *)
| NodeArg (parsed : MINode)
| ThreadArgs (threadId : JSNumber) (threadGroupId : option JSNumber).

Inductive Effect : Type :=
| Emit (event : string) (args : EventArgs)
| StdinWrite (data : string)                     (* process.stdin.write(data) *)
| Resolve (p : Promise) (node : MINode)
| Reject (p : Promise) (err : MIError).

(** The closure stored in [handlers[sel]]: what it captured. *)
Record Handler : Type := {
  h_command : string;
  h_suppressFailure : bool;
  h_promise : Promise
}.

Record MI2 : Type := {
  printCalls : bool;
  debugOutput : bool;
  currentToken : N;
  handlers : gmap N Handler;
  buffer : option string;        (* declared without a value: undefined at first *)
  output : list string;
  promises : nat                 (* how many promises sendCommand has made *)
}.

(** [new MI2(...)], with the two public flags as the caller sets them
    (both are falsy when left alone). *)
Definition new_MI2 (printCalls debugOutput : bool) : MI2 :=
  {| printCalls := printCalls; debugOutput := debugOutput;
     currentToken := 1; handlers := ∅; buffer := None; output := [];
     promises := 0 |}.

Definition set_currentToken (t : N) (st : MI2) : MI2 :=
  {| printCalls := printCalls st; debugOutput := debugOutput st;
     currentToken := t; handlers := handlers st; buffer := buffer st;
     output := output st; promises := promises st |}.

Definition set_handlers (h : gmap N Handler) (st : MI2) : MI2 :=
  {| printCalls := printCalls st; debugOutput := debugOutput st;
     currentToken := currentToken st; handlers := h; buffer := buffer st;
     output := output st; promises := promises st |}.

Definition set_buffer (b : option string) (st : MI2) : MI2 :=
  {| printCalls := printCalls st; debugOutput := debugOutput st;
     currentToken := currentToken st; handlers := handlers st; buffer := b;
     output := output st; promises := promises st |}.

Definition set_output (o : list string) (st : MI2) : MI2 :=
  {| printCalls := printCalls st; debugOutput := debugOutput st;
     currentToken := currentToken st; handlers := handlers st; buffer := buffer st;
     output := o; promises := promises st |}.

Definition set_promises (n : nat) (st : MI2) : MI2 :=
  {| printCalls := printCalls st; debugOutput := debugOutput st;
     currentToken := currentToken st; handlers := handlers st; buffer := buffer st;
     output := output st; promises := n |}.

Definition M (A : Type) : Type := MI2 → A * MI2 * list Effect.

Definition ret {A} (a : A) : M A := λ st, (a, st, []).

Definition bind {A B} (m : M A) (f : A → M B) : M B :=
  λ st, let '(a, st1, e1) := m st in
        let '(b, st2, e2) := f a st1 in
        (b, st2, e1 ++ e2).

Definition get : M MI2 := λ st, (st, st, []).
Definition modify (f : MI2 → MI2) : M unit := λ st, (tt, f st, []).
Definition tell (e : Effect) : M unit := λ st, (tt, st, [e]).

Notation "x <- m ;; k" := (bind m (λ x, k))
  (at level 100, m at next level, right associativity).
Notation "m ;; k" := (bind m (λ _, k))
  (at level 100, right associativity).

Definition when (b : bool) (m : M unit) : M unit := if b then m else ret tt.

(** [l.forEach(f)] *)
Fixpoint forEach {A} (l : list A) (f : A → M unit) : M unit :=
  match l with
  | [] => ret tt
  | x :: l' => f x ;; forEach l' f
  end.

Definition state_of {A} (r : A * MI2 * list Effect) : MI2 := r.1.2.
Definition effects_of {A} (r : A * MI2 * list Effect) : list Effect := r.2.
Definition value_of {A} (r : A * MI2 * list Effect) : A := r.1.1.

(** ** Reading the effects *)

(** The promise settlements among the effects, in order. *)
Definition is_settlement (e : Effect) : bool :=
  match e with
  | Resolve _ _ | Reject _ _ => true
  | _ => false
  end.

Definition settles (p : Promise) (e : Effect) : bool :=
  match e with
  | Resolve q _ | Reject q _ => Nat.eqb p q
  | _ => false
  end.

Definition rejects (p : Promise) (e : Effect) : bool :=
  match e with
  | Reject q _ => Nat.eqb p q
  | _ => false
  end.

(** The lines written to the subprocess. *)
Fixpoint stdin_lines (es : list Effect) : list string :=
  match es with
  | [] => []
  | StdinWrite d :: es' => d :: stdin_lines es'
  | _ :: es' => stdin_lines es'
  end.

(** The texts of the [msg] events on one channel. *)
Fixpoint channel_lines (channel : string) (es : list Effect) : list string :=
  match es with
  | [] => []
  | Emit name (MsgArgs ch text) :: es' =>
      if String.eqb name "msg" && String.eqb ch channel
      then text :: channel_lines channel es'
      else channel_lines channel es'
  | _ :: es' => channel_lines channel es'
  end.

(** How often the event [name] was emitted. *)
Definition is_event (name : string) (e : Effect) : bool :=
  match e with
  | Emit n _ => String.eqb n name
  | _ => false
  end.

Definition count_event (name : string) (es : list Effect) : nat :=
  length (filter (λ e, is_event name e = true) es).

(** ** A parser for flat records

    Modelled from the spec: the function [parseMI] of [./mi_parse],
    which is not among the sources, for the records whose values are
    all quoted strings.  Per the spec: the token is the leading digits
    (absent, [undefined]); a result record begins with [^] and a result
    class; exec, status and notify records begin with [*], [+] and [=]
    and an async class; stream records begin with [~] (console), [@]
    (target) or [&] (log) and carry a quoted string whose escape
    sequences are decoded; the payload is a comma-separated list of
    name=value pairs.  The engine itself is verified for every parser;
    this one gives the examples their records. *)
Module FlatParser.

Fixpoint span_digits (s : string) : string * string :=
  match s with
  | String c s' =>
      if is_digit c then let '(d, r) := span_digits s' in (String c d, r)
      else (EmptyString, s)
  | EmptyString => (EmptyString, EmptyString)
  end.

(** The text before the first [c], and the text after it. *)
Fixpoint take_until (c : ascii) (s : string) : string * option string :=
  match s with
  | String d s' =>
      if Ascii.eqb d c then (EmptyString, Some s')
      else let '(t, r) := take_until c s' in (String d t, r)
  | EmptyString => (EmptyString, None)
  end.

Definition unescape (c : ascii) : ascii :=
  if Ascii.eqb c "n" then "010"
  else if Ascii.eqb c "t" then "009"
  else if Ascii.eqb c "r" then "013"
  else c.

(** The string that opened just before [s]: its decoded text and what
    follows the closing quote. *)
Fixpoint parse_cstring (s : string) : string * string :=
  match s with
  | EmptyString => (EmptyString, EmptyString)
  | String c s' =>
      if Ascii.eqb c "034" then (EmptyString, s')
      else if Ascii.eqb c "\" then
        match s' with
        | String d s'' =>
            let '(t, r) := parse_cstring s'' in (String (unescape d) t, r)
        | EmptyString => (EmptyString, EmptyString)
        end
      else let '(t, r) := parse_cstring s' in (String c t, r)
  end.

(** name="value" pairs separated by commas; stops at the first thing
    that is not one. *)
Fixpoint parse_pairs (fuel : nat) (s : string) : list (string * string) :=
  match fuel with
  | O => []
  | S fuel' =>
      match take_until "=" s with
      | (name, Some (String q body)) =>
          if Ascii.eqb q "034" then
            let '(v, r) := parse_cstring body in
            (name, v) ::
              match r with
              | String c r' => if Ascii.eqb c "," then parse_pairs fuel' r' else []
              | EmptyString => []
              end
          else []
      | _ => []
      end
  end.

Fixpoint lookup_pair (pairs : list (string * string)) (name : string) : option string :=
  match pairs with
  | [] => None
  | (n, v) :: pairs' => if String.eqb n name then Some v else lookup_pair pairs' name
  end.

Definition empty_node (tok : option N) : MINode :=
  {| token := tok; outOfBandRecord := []; resultRecords := None;
     node_output := []; result := λ _, None; record := λ _, None |}.

Definition async_type (marker : ascii) : string :=
  if Ascii.eqb marker "*" then "exec"
  else if Ascii.eqb marker "+" then "status"
  else "notify".

Definition stream_type (marker : ascii) : string :=
  if Ascii.eqb marker "~" then "console"
  else if Ascii.eqb marker "@" then "target"
  else "log".

Definition payload_pairs (rest : option string) : list (string * string) :=
  match rest with
  | Some r => parse_pairs (S (String.length r)) r
  | None => []
  end.

Definition parseMI (line : string) : MINode :=
  let '(digits, rest) := span_digits line in
  let tok := match digits with
             | EmptyString => None
             | _ => Some (parseInt digits)
             end in
  match rest with
  | String marker body =>
      if Ascii.eqb marker "^" then
        let '(cls, r) := take_until "," body in
        {| token := tok; outOfBandRecord := [];
           resultRecords := Some {| resultClass := cls |};
           node_output := [];
           result := lookup_pair (payload_pairs r);
           record := λ _, None |}
      else if one_of "*+=" marker then
        let '(cls, r) := take_until "," body in
        {| token := tok;
           outOfBandRecord :=
             [ {| isStream := false; type := async_type marker;
                  asyncClass := Some cls; content := default EmptyString r |} ];
           resultRecords := None;
           node_output := [];
           result := λ _, None;
           record := lookup_pair (payload_pairs r) |}
      else if one_of "~@&" marker then
        match body with
        | String q text =>
            if Ascii.eqb q "034" then
              {| token := tok;
                 outOfBandRecord :=
                   [ {| isStream := true; type := stream_type marker;
                        asyncClass := None; content := (parse_cstring text).1 |} ];
                 resultRecords := None;
                 node_output := [];
                 result := λ _, None;
                 record := λ _, None |}
            else empty_node tok
        | EmptyString => empty_node tok
        end
      else empty_node tok
  | EmptyString => empty_node tok
  end.

(** A stand-in for [JSON.stringify] in the examples: the token alone. *)
Definition stringify (n : MINode) : string :=
  "{token:" +:+ js_str (pretty <$> token n) +:+ "}".

End FlatParser.

(** ** The breakpoint record

    Modelled from the spec: the [Breakpoint] interface of [./backend],
    which is not among the sources, with the fields [addBreakPoint]
    reads: a file and line or a raw address expression, an optional
    condition and an optional count condition. *)
Module Breakpoint.
Record t : Type := {
  file : option string;
  line : N;
  raw : option string;
  condition : option string;
  countCondition : option string
}.
End Breakpoint.

(** What a promise executor can throw here: reading [[0]] of [null]. *)
Inductive Thrown : Type :=
| TypeError.

(** ** The engine *)

(** [this.emit(event, ...)]: the event is recorded. The listeners, which
    the emitter runs before it returns, are code of the callers and are
    not run here; the class registers one of its own only in [abort],
    which is not modelled. *)
Definition emit (event : string) (args : EventArgs) : M unit :=
  tell (Emit event args).

Definition logNoNewLine (type msg : string) : M unit :=
  emit "msg" (MsgArgs type msg).

(** [msg[msg.length - 1] === "\n" ? msg : (msg + "\n")] *)
Definition with_newline (msg : string) : string :=
  match last_char msg with
  | Some c => if Ascii.eqb c "010" then msg else msg +:+ NL
  | None => msg +:+ NL
  end.

Definition log (type msg : string) : M unit :=
  emit "msg" (MsgArgs type (with_newline msg)).

Definition sendRaw (raw : string) : M unit :=
  st <- get ;;
  when (printCalls st) (log "log" ("=> " +:+ raw)) ;;
  tell (StdinWrite (raw +:+ NL)).

(** The body of the closure that [sendCommand] stores in [handlers]. *)
Definition run_handler (h : Handler) (node : MINode) : M unit :=
  if is_error node then
    if h_suppressFailure h then
      log "stderr" ("WARNING: Error executing command '" +:+ h_command h +:+ "'") ;;
      tell (Resolve (h_promise h) node)
    else
      tell (Reject (h_promise h)
              {| message := js_or (result node "msg") "Internal error";
                 source := h_command h |})
  else
    tell (Resolve (h_promise h) node).

(** Returns the promise it made. *)
Definition sendCommand (command : string) (suppressFailure : bool) : M Promise :=
  st <- get ;;
  let sel := currentToken st in
  modify (set_currentToken (js_incr sel)) ;;
  let p := promises st in
  modify (set_promises (S p)) ;;
  modify (λ st, set_handlers
            (<[sel := {| h_command := command;
                         h_suppressFailure := suppressFailure;
                         h_promise := p |}]> (handlers st)) st) ;;
  sendRaw (pretty sel +:+ "-" +:+ command) ;;
  ret p.

(** Where the breakpoint goes: a raw address expression behind a star,
    or the quoted file and line. *)
Definition location_target (breakpoint : Breakpoint.t) : string :=
  if truthy (Breakpoint.raw breakpoint) then
    "*" +:+ escape (js_str (Breakpoint.raw breakpoint))
  else
    DQ +:+ escape (js_or (Breakpoint.file breakpoint) "<unknown>") +:+
    ":" +:+ pretty (Breakpoint.line breakpoint) +:+ DQ.

(** The location argument of [break-insert], or the exception of the
    promise executor. *)
Definition breakpoint_location (breakpoint : Breakpoint.t) : M (Thrown + string) :=
  flags <-
    (if truthy (Breakpoint.countCondition breakpoint) then
       let countCondition := js_str (Breakpoint.countCondition breakpoint) in
       if bool_decide (first_char countCondition = Some ">"%char) then
         match exec numRegex (substr_from 1 countCondition) with
         | Some m => ret (inr ("-i " +:+ m +:+ " "))
         | None => ret (inl TypeError)
         end
       else
         match exec numRegex countCondition with
         | Some m =>
             if negb (Nat.eqb (String.length m) (String.length countCondition)) then
               log "stderr"
                 ("Unsupported break count expression: '" +:+ countCondition +:+
                  "'. Only supports 'X' for breaking once after X times or '>X' for ignoring the first X breaks") ;;
               ret (inr "-t ")
             else if negb (parseInt m =? 0) then
               ret (inr ("-t -i " +:+ pretty (parseInt m) +:+ " "))
             else ret (inr EmptyString)
         | None => ret (inl TypeError)
         end
     else ret (inr EmptyString)) ;;
  match flags with
  | inl e => ret (inl e)
  | inr location => ret (inr (location +:+ location_target breakpoint))
  end.

(** The synchronous part of [addBreakPoint]: [inl] when the executor
    threw, so that the returned promise is rejected at once; [inr p]
    when the command went out and the returned promise waits for the
    promise [p] of [sendCommand]. *)
Definition addBreakPoint (breakpoint : Breakpoint.t) : M (Thrown + Promise) :=
  log "stderr" "addBreakPoint" ;;
  location <- breakpoint_location breakpoint ;;
  match location with
  | inl e => ret (inl e)
  | inr location =>
      p <- sendCommand ("break-insert " +:+ location) false ;;
      ret (inr p)
  end.

(** [x] when it is there, [d] when it is absent: the fallback as the
    specification words it, next to [js_or], the one the code has. *)
Definition present_or (x : option string) (d : string) : string :=
  match x with
  | Some s => s
  | None => d
  end.

(** The line [sendCommand] writes for a token and a command. *)
Definition wire_line (tok : N) (command : string) : string :=
  (pretty tok +:+ "-" +:+ command) +:+ NL.

(** ** Reading the classifier

    The classification of a line said without regular expressions. *)

Fixpoint skip_digits (s : string) : string :=
  match s with
  | String c s' => if is_digit c then skip_digits s' else s
  | EmptyString => EmptyString
  end.

(** The first character of [s] is one of [set]. *)
Definition begins_with_one_of (set : string) (s : string) : bool :=
  match s with
  | String c _ => one_of set c
  | EmptyString => false
  end.

(** Some character of [s] is one of [set]. *)
Fixpoint has_one_of (set : string) (s : string) : bool :=
  match s with
  | String c s' => one_of set c || has_one_of set s'
  | EmptyString => false
  end.

(** [t] occurs in [s]. *)
Fixpoint occurs (t : string) (s : string) : bool :=
  match strip_prefix t s with
  | Some _ => true
  | None =>
      match s with
      | String _ s' => occurs t s'
      | EmptyString => false
      end
  end.

(** The line begins with a run of digits (possibly none) or with the
    word undefined, and one of [set] comes next. *)
Definition token_then_one_of (set : string) (line : string) : bool :=
  begins_with_one_of set (skip_digits line) ||
  match strip_prefix "undefined" line with
  | Some rest => begins_with_one_of set rest
  | None => false
  end.

(** In-band as the code has it: a stream marker anywhere in the line. *)
Definition in_band (line : string) : bool :=
  token_then_one_of "*+=" line || has_one_of "~@&^" line.

(** In-band as the specification words it: a stream marker in front. *)
Definition in_band_leading (line : string) : bool :=
  token_then_one_of "*+=" line || begins_with_one_of "~@&^" line.

Section Engine.

(** [parseMI] of [./mi_parse] and [JSON.stringify]: the engine is
    verified for whatever they return. *)
Context (parseMI : string → MINode) (JSON_stringify : MINode → string).

(** The body of the second [parsed.outOfBandRecord.forEach]. *)
Definition onOutput_record (parsed : MINode) (rec : OutOfBandRecord) : M unit :=
  if isStream rec then
    log (type rec) (content rec)
  else
    (if String.eqb (type rec) "exec" then
       emit "exec-async-output" (NodeArg parsed) ;;
       if bool_decide (asyncClass rec = Some "running") then
         emit "running" (NodeArg parsed)
       else if bool_decide (asyncClass rec = Some "stopped") then
         let reason := record parsed "reason" in
         log "stderr" ("stop: " +:+ js_str reason) ;;
         (if bool_decide (reason = Some "breakpoint-hit") then
            emit "breakpoint" (NodeArg parsed)
          else if bool_decide (reason = Some "end-stepping-range") then
            emit "step-end" (NodeArg parsed)
          else if bool_decide (reason = Some "function-finished") then
            emit "step-out-end" (NodeArg parsed)
          else if bool_decide (reason = Some "signal-received") then
            emit "signal-stop" (NodeArg parsed)
          else if bool_decide (reason = Some "exited-normally") then
            emit "exited-normally" (NodeArg parsed)
          else if bool_decide (reason = Some "exited") then
            log "stderr" ("Program exited with code " +:+ js_str (record parsed "exit-code")) ;;
            emit "exited-normally" (NodeArg parsed)
          else
            log "console" ("Not implemented stop reason (assuming exception): " +:+ js_str reason) ;;
            emit "stopped" (NodeArg parsed)) ;;
         emit "generic-stopped" (NodeArg parsed)
       else
         log "log" (JSON_stringify parsed)
     else if String.eqb (type rec) "notify" then
       if bool_decide (asyncClass rec = Some "thread-created") then
         emit "thread-created"
           (ThreadArgs (NumberOf (record parsed "id"))
                       (Some (NumberOf (record parsed "group-id"))))
       else if bool_decide (asyncClass rec = Some "thread-exited") then
         emit "thread-exited"
           (ThreadArgs (NumberOf (record parsed "id"))
                       (Some (NumberOf (record parsed "group-id"))))
       else if bool_decide (asyncClass rec = Some "thread-selected") then
         emit "thread-selected" (ThreadArgs (NumberOf (record parsed "id")) None)
       else ret tt
     else ret tt) ;;
    modify (set_output []).

(** The token branch: gives [parsed] as it is afterwards and [handled]. *)
Definition dispatch_token (parsed : MINode) : M (MINode * bool) :=
  match token parsed with
  | Some tok =>
      st <- get ;;
      match handlers st !! tok with
      | Some handler =>
          let parsed := set_node_output (output st) parsed in
          run_handler handler parsed ;;
          modify (λ st, set_handlers (delete tok (handlers st)) st) ;;
          modify (set_output []) ;;
          ret (parsed, true)
      | None => ret (parsed, false)
      end
  | None => ret (parsed, false)
  end.

(** The body of [lines.forEach] in [onOutput]. *)
Definition onOutput_line (line : string) : M unit :=
  if couldBeOutput line then
    match exec gdbMatch line with
    | None => log "stdout" line
    | Some _ => ret tt
    end
  else
    let parsed := parseMI line in
    st <- get ;;
    when (debugOutput st) (log "log" ("GDB -> App: " +:+ JSON_stringify parsed)) ;;
    (* parsed.outOfBandRecord is an array, so every test of it passes *)
    modify (λ st, set_output (output st ++ map content (outOfBandRecord parsed)) st) ;;
    r <- dispatch_token parsed ;;
    let '(parsed, handled) := r in
    when (negb handled && is_error parsed)
      (log "stderr" (js_or (result parsed "msg") line)) ;;
    forEach (outOfBandRecord parsed) (onOutput_record parsed) ;;
    let handled := true in
    when (negb handled) (log "log" ("Unhandled: " +:+ JSON_stringify parsed)).

Definition onOutput (lines : string) : M unit :=
  forEach (split "010" lines) onOutput_line.

Definition onOutputPartial (line : string) : M bool :=
  if couldBeOutput line then
    logNoNewLine "stdout" line ;;
    ret true
  else ret false.

(** [data] is the chunk as text: a string as it is, a [Buffer] decoded. *)
Definition stdout (data : string) : M unit :=
  log "stderr" ("<= " +:+ data) ;;
  modify (λ st, set_buffer (Some (js_str (buffer st) +:+ data)) st) ;;
  st <- get ;;
  match lastIndexOf "010" (js_str (buffer st)) with
  | Some end_ =>
      onOutput (String.substring 0 end_ (js_str (buffer st))) ;;
      modify (λ st, set_buffer (Some (substr_from (S end_) (js_str (buffer st)))) st)
  | None => ret tt
  end ;;
  st <- get ;;
  when (negb (Nat.eqb (String.length (js_str (buffer st))) 0))
    (partial <- onOutputPartial (js_str (buffer st)) ;;
     when partial (modify (set_buffer (Some EmptyString)))).

(** What can happen to an engine: a command goes out, a raw line goes
    out ([stop] and [detach] use [sendRaw] directly), a chunk comes in. *)
Inductive Action : Type :=
| SendCommand (command : string) (suppressFailure : bool)
| SendRaw (raw : string)
| Stdout (data : string).

Definition perform (a : Action) : M unit :=
  match a with
  | SendCommand command suppressFailure => sendCommand command suppressFailure ;; ret tt
  | SendRaw raw => sendRaw raw
  | Stdout data => stdout data
  end.

Definition perform_all (actions : list Action) : M unit :=
  forEach actions perform.

(** ** Reading the engine

    Notions the statements below are written with. *)

(** The effects of a computation that does not look at the state. *)
Definition effects_in {A} (m : M A) : list Effect :=
  effects_of (m (new_MI2 false false)).

(** The pending command a parsed line answers, if any. *)
Definition pending (st : MI2) (parsed : MINode) : option (N * Handler) :=
  match token parsed with
  | Some tok =>
      match handlers st !! tok with
      | Some h => Some (tok, h)
      | None => None
      end
  | None => None
  end.

(** The text of the stream records of a line. *)
Definition stream_text (parsed : MINode) : list string :=
  map content (filter (λ r, isStream r = true) (outOfBandRecord parsed)).

Definition all_stream (parsed : MINode) : bool :=
  forallb isStream (outOfBandRecord parsed).

(** The effects of the out-of-band records of a line, in order. *)
Definition records_effects (parsed : MINode) : list Effect :=
  concat (map (λ r, effects_in (onOutput_record parsed r)) (outOfBandRecord parsed)).

(** What the completions were resolved with: the promise and the
    stream text attached to the record. *)
Fixpoint delivered (es : list Effect) : list (Promise * list string) :=
  match es with
  | [] => []
  | Resolve p node :: es' => (p, node_output node) :: delivered es'
  | _ :: es' => delivered es'
  end.

(** The failures the completions were rejected with. *)
Fixpoint failures (es : list Effect) : list (Promise * MIError) :=
  match es with
  | [] => []
  | Reject p err :: es' => (p, err) :: failures es'
  | _ :: es' => failures es'
  end.

(** The event each stop reason raises, as the specification lists them. *)
Definition stop_event_of (reason : string) : option string :=
  if String.eqb reason "breakpoint-hit" then Some "breakpoint"
  else if String.eqb reason "end-stepping-range" then Some "step-end"
  else if String.eqb reason "function-finished" then Some "step-out-end"
  else if String.eqb reason "signal-received" then Some "signal-stop"
  else if String.eqb reason "exited-normally" then Some "exited-normally"
  else None.

Definition unimplemented_stop (parsed : MINode) : list Effect :=
  [Emit "msg" (MsgArgs "console"
     (with_newline ("Not implemented stop reason (assuming exception): "
                    +:+ js_str (record parsed "reason"))));
   Emit "stopped" (NodeArg parsed)].

(** What a stopped record raises for its reason, by the same list. *)
Definition stop_reason_effects (parsed : MINode) : list Effect :=
  match record parsed "reason" with
  | Some reason =>
      match stop_event_of reason with
      | Some event => [Emit event (NodeArg parsed)]
      | None =>
          if String.eqb reason "exited" then
            [Emit "msg" (MsgArgs "stderr"
               (with_newline ("Program exited with code "
                              +:+ js_str (record parsed "exit-code"))));
             Emit "exited-normally" (NodeArg parsed)]
          else unimplemented_stop parsed
      end
  | None => unimplemented_stop parsed
  end.

(** Two console stream records, a and b, one per line, as the
    debugger writes them: a tilde and the text in double quotes. *)
Definition console_line (text : string) : string := "~" +:+ DQ +:+ text +:+ DQ.



(** What [stdout] does with the text after the last newline: program
    output is flushed at once, anything else is held back. *)
Definition flushes (rest : string) : bool :=
  negb (Nat.eqb (String.length rest) 0) && couldBeOutput rest.

Definition held_back (rest : string) : string :=
  if flushes rest then EmptyString else rest.

Definition flushed (rest : string) : list Effect :=
  if flushes rest then [Emit "msg" (MsgArgs "stdout" rest)] else [].

(** The engine is the same but for its two buffers and for pending
    commands that are gone. *)
Definition shrinks (st st' : MI2) : Prop :=
  printCalls st' = printCalls st ∧ debugOutput st' = debugOutput st ∧
  currentToken st' = currentToken st ∧ promises st' = promises st ∧
  handlers st' ⊆ handlers st.

(** A settlement among the effects is that of a command pending in [st]. *)
Definition answers (st : MI2) (e : Effect) : Prop :=
  ∀ p, settles p e = true →
       ∃ tok h, handlers st !! tok = Some h ∧ h_promise h = p.

(** The pending commands hold promises already made, each its own. *)
Definition promises_made (st : MI2) : Prop :=
  ∀ tok h, handlers st !! tok = Some h → (h_promise h < promises st)%nat.

Definition promises_distinct (st : MI2) : Prop :=
  ∀ t1 t2 h1 h2,
    handlers st !! t1 = Some h1 → handlers st !! t2 = Some h2 →
    h_promise h1 = h_promise h2 → t1 = t2.

(** The pending tokens were all drawn before the next one, as long as
    the counter still counts. *)
Definition tokens_drawn (st : MI2) : Prop :=
  currentToken st ≤ MAX_SAFE ∧
  ∀ tok h, handlers st !! tok = Some h →
           tok < currentToken st ∨ currentToken st = MAX_SAFE.

(** The promise [p] was made and no pending command holds it. *)
Definition settled_for_good (p : Promise) (st : MI2) : Prop :=
  (p < promises st)%nat ∧
  ∀ tok h, handlers st !! tok = Some h → h_promise h ≠ p.

(** How many of the actions are calls of [sendCommand]. *)
Fixpoint count_sends (actions : list Action) : N :=
  match actions with
  | [] => 0
  | SendCommand _ _ :: actions' => 1 + count_sends actions'
  | _ :: actions' => count_sends actions'
  end.

(** ** More of the engine *)

(** [l.join(sep)] for strings. *)
Fixpoint join (sep : string) (l : list string) : string :=
  match l with
  | [] => EmptyString
  | [x] => x
  | x :: l' => x +:+ sep +:+ join sep l'
  end.

(** The synchronous part of [removeBreakpoints]: [inl true] when the
    promise it returns is resolved with [true] at once, [inr p] when it
    waits for the promise [p] of the command sent. *)
Definition removeBreakpoints (breakpoints : list N) : M (bool + Promise) :=
  log "stderr" "removeBreakPoint" ;;
  if Nat.eqb (length breakpoints) 0 then ret (inl true)
  else
    p <- sendCommand ("break-delete " +:+ join " " (map pretty breakpoints)) false ;;
    ret (inr p).

Definition sendUserInput (command : string) : M Promise :=
  if bool_decide (first_char command = Some "-"%char) then
    sendCommand (substr_from 1 command) false
  else
    sendCommand ("interpreter-exec console " +:+ DQ +:+ command +:+ DQ) false.

(** [getSections] up to its [await]: the query goes out. *)
Definition getSections : M Promise :=
  sendCommand ("interpreter-exec console " +:+ DQ +:+ "info file" +:+ DQ) false.

(** What [connect] sends once the subprocess is spawned, in the order of
    the calls: the async-mode command with failure suppression, the
    commands it was given, the query of [getSections]. Spawning, the
    wiring of the streams and the waiting for the promises are not
    modelled. *)
Definition connect (commands : list string) : M unit :=
  sendCommand "gdb-set target-async on" true ;;
  forEach commands (λ c, sendCommand c false ;; ret tt) ;;
  getSections ;;
  ret tt.

(** One turn of [nextCommand] in [_sendCommandSequence]: whether it
    resolved the promise of the sequence (with [true]), and the promise
    of the command it sent. There is no [return] after [resolve(true)],
    and [commands[0]] of an empty array is [undefined]. When the promise
    of the command resolves, the next turn runs on [commands.slice(1)]. *)
Definition nextCommand (commands : list string) : M (bool * Promise) :=
  let resolved := Nat.eqb (length commands) 0 in
  let command := js_str (head commands) in
  p <- sendCommand command false ;;
  ret (resolved, p).

(** [restart] and [_sendCommandSequence], up to the first command. *)
Definition restart (commands : list string) : M (bool * Promise) :=
  log "stderr" "restart" ;;
  nextCommand commands.

(** [onOutputStderr] and [stderr]. The one field they touch, [errbuf],
    is passed in and handed back; like [buffer] it has no value at
    first. *)
Definition onOutputStderr (lines : string) : M unit :=
  forEach (split "010" lines) (λ line, log "stderr" line).

Definition stderr (data : string) (errbuf : option string) (st : MI2)
    : option string * MI2 * list Effect :=
  let errbuf := js_str errbuf +:+ data in
  let '(errbuf, st, es) :=
    match lastIndexOf "010" errbuf with
    | Some end_ =>
        let '(_, st, es) := onOutputStderr (String.substring 0 end_ errbuf) st in
        (substr_from (S end_) errbuf, st, es)
    | None => (errbuf, st, [])
    end in
  if negb (Nat.eqb (String.length errbuf) 0) then
    let '(_, st, es') := logNoNewLine "stderr" errbuf st in
    (Some EmptyString, st, es ++ es')
  else (Some errbuf, st, es).

(** ** Reading strings *)

(** The text after the last newline, or the whole text if it has none:
    what [stdout] does not hand on as lines. *)
Definition tail_after_newline (text : string) : string :=
  match lastIndexOf "010" text with
  | Some end_ => substr_from (S end_) text
  | None => text
  end.

Fixpoint has_digit (s : string) : bool :=
  match s with
  | String c s' => is_digit c || has_digit s'
  | EmptyString => false
  end.

Fixpoint all_digits (s : string) : bool :=
  match s with
  | String c s' => is_digit c && all_digits s'
  | EmptyString => true
  end.

(** The digits [s] begins with. *)
Fixpoint leading_digits (s : string) : string :=
  match s with
  | String c s' => if is_digit c then String c (leading_digits s') else EmptyString
  | EmptyString => EmptyString
  end.

(** The first run of digits in [s]. *)
Fixpoint first_digits (s : string) : string :=
  match s with
  | String c s' => if is_digit c then leading_digits s else first_digits s'
  | EmptyString => EmptyString
  end.

(** The body of a quoted C string read back: a backslash makes the next
    character literal, the first quote without one ends the string. The
    text, and what follows the closing quote. *)
Fixpoint unquote (s : string) : option (string * string) :=
  match s with
  | EmptyString => None
  | String c s' =>
      if Ascii.eqb c "034" then Some (EmptyString, s')
      else if Ascii.eqb c "\" then
        match s' with
        | String d s'' =>
            match unquote s'' with
            | Some (t, r) => Some (String d t, r)
            | None => None
            end
        | EmptyString => None
        end
      else
        match unquote s' with
        | Some (t, r) => Some (String c t, r)
        | None => None
        end
  end.

(** The lines of commands sent one after the other from token [tok] on. *)
Fixpoint wire_lines_from (tok : N) (commands : list string) : list string :=
  match commands with
  | [] => []
  | c :: commands' => wire_line tok c :: wire_lines_from (tok + 1) commands'
  end.

(** The texts one after the other. *)
Definition concat_text (l : list string) : string :=
  foldr String.append EmptyString l.

(** The promises settled by the effects, in order. *)
Fixpoint settled_promises (es : list Effect) : list Promise :=
  match es with
  | [] => []
  | Resolve p _ :: es' | Reject p _ :: es' => p :: settled_promises es'
  | _ :: es' => settled_promises es'
  end.

Definition stderr_msg (text : string) : Effect :=
  Emit "msg" (MsgArgs "stderr" text).

(** The pending commands hold promises already made, each its own. *)
Definition promises_sound (st : MI2) : Prop :=
  promises_made st ∧ promises_distinct st.

(** A step of the engine settles no promise twice, and none that was
    settled before. *)
Definition settles_once (m : M unit) : Prop :=
  ∀ st, promises_sound st →
    let r := m st in
    promises_sound (state_of r) ∧
    NoDup (settled_promises (effects_of r)) ∧
    (∀ p, p ∈ settled_promises (effects_of r) → settled_for_good p (state_of r)) ∧
    (∀ p, settled_for_good p st →
          settled_for_good p (state_of r) ∧ p ∉ settled_promises (effects_of r)).

(** The echo of a chunk that [stdout] logs first. *)
Definition chunk_echo (data : string) : Effect :=
  Emit "msg" (MsgArgs "stderr" (with_newline ("<= " +:+ data))).


(** ** How the monad runs *)

Lemma bind_run {A B} (m : M A) (f : A → M B) st a st1 e1 :
  m st = (a, st1, e1) →
  bind m f st = (let '(b, st2, e2) := f a st1 in (b, st2, e1 ++ e2)).
Proof. intros H. unfold bind. by rewrite H. Qed.

Lemma bind_unfold {A B} (m : M A) (f : A → M B) st :
  bind m f st =
    (let '(a, st1, e1) := m st in
     let '(b, st2, e2) := f a st1 in (b, st2, e1 ++ e2)).
Proof. reflexivity. Qed.

Lemma log_run type msg st :
  log type msg st = (tt, st, [Emit "msg" (MsgArgs type (with_newline msg))]).
Proof. reflexivity. Qed.

Lemma run_handler_run h node st :
  run_handler h node st = (tt, st, effects_in (run_handler h node)).
Proof.
  unfold effects_in, run_handler.
  destruct (is_error node), (h_suppressFailure h); reflexivity.
Qed.

Lemma onOutput_record_run parsed rec st :
  onOutput_record parsed rec st =
    (tt, (if isStream rec then st else set_output [] st),
     effects_in (onOutput_record parsed rec)).
Proof.
  unfold effects_in, onOutput_record.
  repeat case_match; reflexivity.
Qed.
Lemma forEach_records_run parsed recs st :
  forEach recs (onOutput_record parsed) st =
    (tt, (if forallb isStream recs then st else set_output [] st),
     concat (map (λ r, effects_in (onOutput_record parsed r)) recs)).
Proof.
  revert st. induction recs as [|r recs IH]; intros st; [reflexivity|].
  simpl forEach. erewrite bind_run by apply onOutput_record_run.
  rewrite IH. simpl. destruct (isStream r); simpl; [reflexivity|].
  by destruct (forallb isStream recs).
Qed.

Lemma when_log_run b type msg st :
  when b (log type msg) st =
    (tt, st, if b then [Emit "msg" (MsgArgs type (with_newline msg))] else []).
Proof. by destruct b. Qed.

Lemma dispatch_token_run parsed st :
  dispatch_token parsed st =
    match pending st parsed with
    | Some (tok, h) =>
        let parsed' := set_node_output (output st) parsed in
        ((parsed', true),
         set_output [] (set_handlers (delete tok (handlers st)) st),
         effects_in (run_handler h parsed'))
    | None => ((parsed, false), st, [])
    end.
Proof.
  unfold dispatch_token, pending.
  destruct (token parsed) as [tok|]; [|reflexivity].
  erewrite bind_run by reflexivity. cbv beta.
  destruct (handlers st !! tok) as [h|]; [|reflexivity].
  erewrite bind_run by apply run_handler_run.
  simpl. by rewrite app_nil_r.
Qed.

(** The closed form of one in-band line. *)
Lemma onOutput_line_inband line st :
  couldBeOutput line = false →
  let parsed := parseMI line in
  let out := output st ++ map content (outOfBandRecord parsed) in
  let dbg := if debugOutput st
             then [Emit "msg" (MsgArgs "log"
                     (with_newline ("GDB -> App: " +:+ JSON_stringify parsed)))]
             else [] in
  onOutput_line line st =
    match pending st parsed with
    | Some (tok, h) =>
        let parsed' := set_node_output out parsed in
        (tt, set_output [] (set_handlers (delete tok (handlers st)) st),
         dbg ++ effects_in (run_handler h parsed') ++ records_effects parsed')
    | None =>
        (tt, set_output (if all_stream parsed then out else []) st,
         dbg ++
         (if is_error parsed
          then [Emit "msg" (MsgArgs "stderr"
                  (with_newline (js_or (result parsed "msg") line)))]
          else []) ++
         records_effects parsed)
    end.
Proof.
  intros Hcould. cbv zeta. unfold onOutput_line. rewrite Hcould.
  unfold records_effects, all_stream.
  set (parsed := parseMI line).
  erewrite bind_run by reflexivity.
  erewrite (bind_run (when _ _)) by apply when_log_run.
  erewrite bind_run by reflexivity.
  rewrite (bind_unfold (dispatch_token _)), dispatch_token_run.
  assert (Hp : pending (set_output (output st ++ map content (outOfBandRecord parsed)) st) parsed
               = pending st parsed) by reflexivity.
  rewrite Hp. clear Hp.
  destruct (pending st parsed) as [[tok h]|]; cbv beta iota zeta.
  - erewrite (bind_run (when _ _)) by apply when_log_run.
    erewrite bind_run by apply forEach_records_run.
    simpl. rewrite !app_nil_r.
    by destruct (forallb isStream _).
  - erewrite (bind_run (when _ _)) by apply when_log_run.
    erewrite bind_run by apply forEach_records_run.
    simpl. rewrite !app_nil_r.
    by destruct (forallb isStream _).
Qed.

(** ** The regular expressions, read *)

#[local] Arguments one_of : simpl never.
#[local] Arguments is_digit : simpl never.

Lemma digit_not_one_of set c :
  (∀ d, one_of set d = true → is_digit d = false) →
  is_digit c = true → one_of set c = false.
Proof.
  intros H Hc. destruct (one_of set c) eqn:E; [|done].
  apply H in E. congruence.
Qed.

Lemma async_markers_not_digits d : one_of "*+=" d = true → is_digit d = false.
Proof.
  destruct d as [[] [] [] [] [] [] [] []]; vm_compute; congruence.
Qed.

(** Greedy digits with backtracking reach the continuation only after
    the whole run, when the continuation refuses a digit in front and
    does not care for the offset. *)
Lemma star_digits_found (k : nat → string → option nat) s pos :
  (∀ p c s', is_digit c = true → k p (String c s') = None) →
  (∀ p p' s', found (k p s') = found (k p' s')) →
  found (star_class is_digit pos s k) = found (k 0%nat (skip_digits s)).
Proof.
  intros Hdigit Hpos. revert pos.
  induction s as [|c s IH]; intros pos; simpl.
  - apply Hpos.
  - destruct (is_digit c) eqn:Hc.
    + rewrite <- (IH (S pos)).
      destruct (star_class is_digit (S pos) s k); [done|].
      by rewrite Hdigit.
    + apply Hpos.
Qed.

Lemma found_match_nonOutput_0 s :
  found (match_at nonOutput 0 s) =
    token_then_one_of "*+=" s || begins_with_one_of "~@&^" s.
Proof.
  unfold match_at, nonOutput.
  cbn [run Nat.eqb].
  set (k := λ (pos' : nat) (s' : string),
              match s' with
              | EmptyString => None
              | String c _ => if one_of "*+=" c then Some (S pos') else None
              end).
  assert (Hk : ∀ p s', found (k p s') = begins_with_one_of "*+=" s').
  { intros p [|c r]; [done|]. unfold k, begins_with_one_of.
    by destruct (one_of "*+=" c). }
  assert (Hstar : found (star_class is_digit 0 s k)
                  = begins_with_one_of "*+=" (skip_digits s)).
  { rewrite star_digits_found.
    - apply Hk.
    - intros p c s' Hc. unfold k.
      by rewrite (digit_not_one_of _ _ async_markers_not_digits Hc).
    - intros p p' s'. by rewrite !Hk. }
  assert (Hlast : found match s with
                        | EmptyString => None
                        | String c _ => if one_of "~@&^" c then Some 1%nat else None
                        end = begins_with_one_of "~@&^" s).
  { destruct s as [|c r]; [done|]. unfold begins_with_one_of.
    by destruct (one_of "~@&^" c). }
  unfold token_then_one_of. rewrite <- Hstar, <- Hlast.
  destruct (star_class is_digit 0 s k) as [e|]; [done|].
  destruct (strip_prefix "undefined" s) as [rest|]; [|done].
  rewrite <- (Hk 0%nat rest). unfold k.
  destruct rest as [|c r]; [done|]. by destruct (one_of "*+=" c).
Qed.

Lemma found_match_nonOutput_S s n :
  found (match_at nonOutput (S n) s) = begins_with_one_of "~@&^" s.
Proof.
  unfold match_at, nonOutput. cbn [run Nat.eqb].
  destruct s as [|c r]; [done|]. simpl. by destruct (one_of "~@&^" c).
Qed.

Lemma found_search_nonOutput_S s n :
  found (search nonOutput (S n) s) = has_one_of "~@&^" s.
Proof.
  revert n. induction s as [|c s IH]; intros n.
  - simpl search. pose proof (found_match_nonOutput_S EmptyString n) as H.
    by destruct (match_at nonOutput (S n) EmptyString).
  - simpl search. pose proof (found_match_nonOutput_S (String c s) n) as H.
    destruct (match_at nonOutput (S n) (String c s)).
    + simpl in *. by rewrite <- H.
    + rewrite IH. simpl in *. by rewrite <- H.
Qed.

Lemma begins_has set s :
  begins_with_one_of set s = true → has_one_of set s = true.
Proof. destruct s; simpl; [done|]. by intros ->. Qed.

Lemma found_search_nonOutput s : found (search nonOutput 0 s) = in_band s.
Proof.
  unfold in_band.
  pose proof (found_match_nonOutput_0 s) as H.
  destruct s as [|c s]; cbn [search].
  - by destruct (match_at nonOutput 0 EmptyString).
  - destruct (match_at nonOutput 0 (String c s)); cbn [found] in *.
    + symmetry in H. apply orb_true_iff in H as [H|H].
      * by rewrite H.
      * apply begins_has in H. rewrite H. by rewrite orb_true_r.
    + rewrite found_search_nonOutput_S. symmetry in H.
      apply orb_false_iff in H as [H1 H2]. rewrite H1.
      cbn [has_one_of begins_with_one_of orb] in *. by rewrite H2.
Qed.

Lemma couldBeOutput_in_band line : couldBeOutput line = negb (in_band line).
Proof.
  rewrite <- found_search_nonOutput. unfold couldBeOutput, exec.
  by destruct (search nonOutput 0 line) as [[b e]|].
Qed.
Lemma strip_gdb_digit c s :
  is_digit c = true → strip_prefix "(gdb)" (String c s) = None.
Proof.
  intros Hc. cbn [strip_prefix].
  destruct (Ascii.eqb_spec "("%char c) as [<-|]; [|done].
  vm_compute in Hc. congruence.
Qed.

Lemma found_match_gdbMatch s pos :
  found (match_at gdbMatch pos s) =
    found (strip_prefix "(gdb)" (skip_digits s)) ||
    match strip_prefix "undefined" s with
    | Some rest => found (strip_prefix "(gdb)" rest)
    | None => false
    end.
Proof.
  unfold match_at, gdbMatch. cbn [run].
  set (k := λ (pos' : nat) (s' : string),
              match strip_prefix "(gdb)" s' with
              | Some _ => Some (pos' + String.length "(gdb)")%nat
              | None => None
              end).
  assert (Hk : ∀ p s', found (k p s') = found (strip_prefix "(gdb)" s')).
  { intros p s'. unfold k. by destruct (strip_prefix "(gdb)" s'). }
  assert (Hstar : found (star_class is_digit pos s k)
                  = found (strip_prefix "(gdb)" (skip_digits s))).
  { rewrite star_digits_found.
    - apply Hk.
    - intros p c s' Hc. unfold k. by rewrite strip_gdb_digit.
    - intros p p' s'. by rewrite !Hk. }
  rewrite <- Hstar.
  destruct (star_class is_digit pos s k) as [e|]; [done|].
  destruct (strip_prefix "undefined" s) as [rest|]; [|done].
  by destruct (strip_prefix "(gdb)" rest).
Qed.

Lemma occurs_here t s r : strip_prefix t s = Some r → occurs t s = true.
Proof. intros H. destruct s; cbn [occurs]; by rewrite H. Qed.

Lemma occurs_tail t c s : occurs t s = true → occurs t (String c s) = true.
Proof. intros H. cbn [occurs]. by destruct (strip_prefix t (String c s)). Qed.

Lemma occurs_skip_digits t s :
  occurs t (skip_digits s) = true → occurs t s = true.
Proof.
  induction s as [|c s IH]; [done|]. cbn [skip_digits].
  destruct (is_digit c); [|done]. intros H. by apply occurs_tail, IH.
Qed.

Lemma occurs_strip p t s r :
  strip_prefix p s = Some r → occurs t r = true → occurs t s = true.
Proof.
  revert s. induction p as [|a p IH]; intros s; cbn [strip_prefix].
  - by intros [= ->].
  - destruct s as [|b s]; [done|]. destruct (Ascii.eqb a b); [|done].
    intros H Hr. by apply occurs_tail, (IH s).
Qed.

Lemma found_search_gdbMatch s pos :
  found (search gdbMatch pos s) = occurs "(gdb)" s.
Proof.
  revert pos. induction s as [|c s IH]; intros pos; cbn [search].
  - pose proof (found_match_gdbMatch EmptyString pos) as H.
    by destruct (match_at gdbMatch pos EmptyString).
  - pose proof (found_match_gdbMatch (String c s) pos) as H.
    destruct (match_at gdbMatch pos (String c s)); cbn [found] in *.
    + symmetry. symmetry in H. apply orb_true_iff in H as [H|H].
      * apply occurs_skip_digits.
        destruct (strip_prefix "(gdb)" (skip_digits (String c s))) eqn:E; [|done].
        by eapply occurs_here.
      * destruct (strip_prefix "undefined" (String c s)) as [rest|] eqn:E; [|done].
        destruct (strip_prefix "(gdb)" rest) eqn:E'; [|done].
        eapply occurs_strip; [exact E|]. by eapply occurs_here.
    + rewrite IH. symmetry in H. apply orb_false_iff in H as [H _].
      cbn [occurs].
      assert (strip_prefix "(gdb)" (String c s) = None) as ->; [|done].
      destruct (is_digit c) eqn:Hc; [by apply strip_gdb_digit|].
      cbn [skip_digits] in H. rewrite Hc in H.
      by destruct (strip_prefix "(gdb)" (String c s)).
Qed.

Lemma found_exec_gdbMatch line : found (exec gdbMatch line) = occurs "(gdb)" line.
Proof.
  rewrite <- (found_search_gdbMatch line 0). unfold exec.
  by destruct (search gdbMatch 0 line) as [[b e]|].
Qed.

(** Program output: the line goes to the stdout channel, unless the
    prompt occurs in it. *)
Lemma onOutput_line_passthrough line st :
  couldBeOutput line = true →
  onOutput_line line st =
    (tt, st,
     if occurs "(gdb)" line then []
     else [Emit "msg" (MsgArgs "stdout" (with_newline line))]).
Proof.
  intros H. unfold onOutput_line. rewrite H, <- found_exec_gdbMatch.
  by destruct (exec gdbMatch line).
Qed.

(** ** The demultiplexer *)

(** Processing a line neither reads nor writes the chunk buffer. *)
Lemma onOutput_line_buffer b line st :
  onOutput_line line (set_buffer b st) =
    (let '(u, st', es) := onOutput_line line st in (u, set_buffer b st', es)).
Proof.
  destruct (couldBeOutput line) eqn:Hc.
  - by rewrite !onOutput_line_passthrough.
  - rewrite !onOutput_line_inband by done. cbv zeta.
    change (pending (set_buffer b st) (parseMI line)) with (pending st (parseMI line)).
    by destruct (pending st (parseMI line)) as [[tok h]|].
Qed.

Lemma forEach_lines_buffer b lines st :
  forEach lines onOutput_line (set_buffer b st) =
    (let '(u, st', es) := forEach lines onOutput_line st in (u, set_buffer b st', es)).
Proof.
  revert st. induction lines as [|l lines IH]; intros st; [done|].
  cbn [forEach]. rewrite !bind_unfold, onOutput_line_buffer.
  destruct (onOutput_line l st) as [[u st1] e1]. rewrite IH.
  by destruct (forEach lines onOutput_line st1) as [[u' st2] e2].
Qed.


(** The closed form of [stdout]. *)
Lemma stdout_run data st :
  let buf := js_str (buffer st) +:+ data in
  let trace := Emit "msg" (MsgArgs "stderr" (with_newline ("<= " +:+ data))) in
  stdout data st =
    match lastIndexOf "010" buf with
    | Some end_ =>
        let r := onOutput (String.substring 0 end_ buf) st in
        let rest := substr_from (S end_) buf in
        (tt, set_buffer (Some (held_back rest)) (state_of r),
         trace :: effects_of r ++ flushed rest)
    | None =>
        (tt, set_buffer (Some (held_back buf)) st, trace :: flushed buf)
    end.
Proof.
  cbv zeta. unfold stdout.
  erewrite bind_run by apply log_run.
  erewrite bind_run by reflexivity.
  erewrite bind_run by reflexivity.
  cbn [buffer set_buffer js_str default].
  set (buf := js_str (buffer st) +:+ data).
  change (id buf) with buf.
  destruct (lastIndexOf "010" buf) as [end_|].
  - cbv iota.
    rewrite (bind_unfold (bind (onOutput _) _)), (bind_unfold (onOutput _)).
    unfold onOutput, state_of, effects_of. rewrite forEach_lines_buffer.
    destruct (forEach _ onOutput_line st) as [[u st1] e1].
    cbn -[substr_from String.substring String.length couldBeOutput].
    unfold held_back, flushed, flushes, onOutputPartial.
    destruct (negb _); cbn -[substr_from couldBeOutput]; [|by rewrite !app_nil_r].
    destruct (couldBeOutput _); cbn; by rewrite ?app_nil_r.
  - cbn -[String.length couldBeOutput].
    unfold held_back, flushed, flushes, onOutputPartial.
    destruct (negb _); cbn -[couldBeOutput]; [|done].
    by destruct (couldBeOutput _).
Qed.

(** ** What a step leaves of the engine *)

Lemma sendRaw_run raw st :
  sendRaw raw st =
    (tt, st,
     (if printCalls st
      then [Emit "msg" (MsgArgs "log" (with_newline ("=> " +:+ raw)))]
      else []) ++ [StdinWrite (raw +:+ NL)]).
Proof. unfold sendRaw. erewrite bind_run by reflexivity. cbn. by destruct (printCalls st). Qed.

Lemma sendCommand_run command suppressFailure st :
  sendCommand command suppressFailure st =
    (promises st,
     set_handlers
       (<[currentToken st := {| h_command := command;
                                h_suppressFailure := suppressFailure;
                                h_promise := promises st |}]> (handlers st))
       (set_promises (S (promises st))
          (set_currentToken (js_incr (currentToken st)) st)),
     (if printCalls st
      then [Emit "msg" (MsgArgs "log"
              (with_newline ("=> " +:+ (pretty (currentToken st) +:+ "-" +:+ command))))]
      else []) ++
     [StdinWrite ((pretty (currentToken st) +:+ "-" +:+ command) +:+ NL)]).
Proof.
  unfold sendCommand.
  do 4 erewrite bind_run by reflexivity.
  rewrite (bind_unfold (sendRaw _)), sendRaw_run.
  cbn -[pretty js_incr]. by rewrite app_nil_r.
Qed.

Lemma shrinks_refl st : shrinks st st.
Proof. by repeat split. Qed.

Lemma shrinks_trans st1 st2 st3 : shrinks st1 st2 → shrinks st2 st3 → shrinks st1 st3.
Proof.
  intros (?&?&?&?&?) (?&?&?&?&?). repeat split; try congruence.
  by etrans.
Qed.

Lemma shrinks_set_buffer b st st' : shrinks st st' → shrinks st (set_buffer b st').
Proof. by intros (?&?&?&?&?). Qed.

Lemma onOutput_line_shrinks line st : shrinks st (state_of (onOutput_line line st)).
Proof.
  destruct (couldBeOutput line) eqn:Hc.
  - rewrite onOutput_line_passthrough by done. apply shrinks_refl.
  - rewrite onOutput_line_inband by done. cbv zeta.
    destruct (pending st (parseMI line)) as [[tok h]|];
      unfold shrinks; cbn; split_and!; try done.
    apply delete_subseteq.
Qed.

Lemma forEach_lines_shrinks lines st :
  shrinks st (state_of (forEach lines onOutput_line st)).
Proof.
  revert st. induction lines as [|l lines IH]; intros st; [apply shrinks_refl|].
  cbn [forEach]. rewrite bind_unfold.
  pose proof (onOutput_line_shrinks l st) as H1.
  destruct (onOutput_line l st) as [[u st1] e1].
  pose proof (IH st1) as H2.
  destruct (forEach lines onOutput_line st1) as [[u' st2] e2].
  by eapply shrinks_trans.
Qed.

Lemma stdout_shrinks data st : shrinks st (state_of (stdout data st)).
Proof.
  rewrite stdout_run. cbv zeta.
  destruct (lastIndexOf _ _); [|by apply shrinks_set_buffer, shrinks_refl].
  apply shrinks_set_buffer, forEach_lines_shrinks.
Qed.

(** The records of a line only emit events. *)
Lemma onOutput_record_emits parsed rec :
  Forall (λ e, is_settlement e = false) (effects_in (onOutput_record parsed rec)).
Proof.
  unfold effects_in, onOutput_record.
  repeat case_match; cbn; repeat constructor.
Qed.

Lemma records_effects_emit parsed :
  Forall (λ e, is_settlement e = false) (records_effects parsed).
Proof.
  unfold records_effects.
  induction (outOfBandRecord parsed) as [|r recs IH]; [constructor|].
  cbn. apply Forall_app. split; [apply onOutput_record_emits|done].
Qed.

Lemma settles_settlement p e : settles p e = true → is_settlement e = true.
Proof. by destruct e. Qed.

Lemma answers_emit st e : is_settlement e = false → answers st e.
Proof.
  intros H p Hp. apply settles_settlement in Hp. congruence.
Qed.

Lemma answers_weaken st st' e : shrinks st st' → answers st' e → answers st e.
Proof.
  intros (_&_&_&_&Hsub) H p Hp. destruct (H p Hp) as (tok & h & Hh & Heq).
  exists tok, h. split; [|done]. by eapply lookup_weaken.
Qed.

Lemma run_handler_answers st tok h node :
  handlers st !! tok = Some h →
  Forall (answers st) (effects_in (run_handler h node)).
Proof.
  intros Hh. unfold effects_in, run_handler.
  destruct (is_error node), (h_suppressFailure h); cbn; repeat constructor;
    try (by apply answers_emit);
    intros p Hp; cbn in Hp; apply Nat.eqb_eq in Hp; by exists tok, h.
Qed.

Lemma pending_Some st parsed tok h :
  pending st parsed = Some (tok, h) →
  token parsed = Some tok ∧ handlers st !! tok = Some h.
Proof.
  unfold pending. destruct (token parsed) as [t|]; [|done].
  destruct (handlers st !! t) eqn:E; [|done]. by intros [= <- <-].
Qed.

Lemma onOutput_line_answers line st :
  Forall (answers st) (effects_of (onOutput_line line st)).
Proof.
  destruct (couldBeOutput line) eqn:Hc.
  - rewrite onOutput_line_passthrough by done. cbn.
    destruct (occurs _ _); repeat constructor. by apply answers_emit.
  - rewrite onOutput_line_inband by done. cbv zeta.
    assert (Hrec : ∀ parsed, Forall (answers st) (records_effects parsed)).
    { intros parsed. eapply Forall_impl; [apply records_effects_emit|].
      intros e. apply answers_emit. }
    destruct (pending st (parseMI line)) as [[tok h]|] eqn:Hp;
      unfold effects_of; cbn [snd].
    + apply pending_Some in Hp as [_ Hh].
      apply Forall_app_2;
        [|apply Forall_app_2; [by eapply run_handler_answers | apply Hrec]].
      destruct (debugOutput st); repeat constructor. by apply answers_emit.
    + apply Forall_app_2; [|apply Forall_app_2; [|apply Hrec]].
      * destruct (debugOutput st); repeat constructor. by apply answers_emit.
      * destruct (is_error _); repeat constructor. by apply answers_emit.
Qed.

Lemma forEach_lines_answers lines st :
  Forall (answers st) (effects_of (forEach lines onOutput_line st)).
Proof.
  revert st. induction lines as [|l lines IH]; intros st; [constructor|].
  cbn [forEach]. rewrite bind_unfold.
  pose proof (onOutput_line_answers l st) as H1.
  pose proof (onOutput_line_shrinks l st) as Hs.
  destruct (onOutput_line l st) as [[u st1] e1].
  pose proof (IH st1) as H2.
  destruct (forEach lines onOutput_line st1) as [[u' st2] e2].
  cbn in *. apply Forall_app_2; [done|].
  eapply Forall_impl; [exact H2|]. intros e. by apply answers_weaken.
Qed.

Lemma stdout_answers data st :
  Forall (answers st) (effects_of (stdout data st)).
Proof.
  rewrite stdout_run. cbv zeta.
  assert (Hflush : ∀ rest, Forall (answers st) (flushed rest)).
  { intros rest. unfold flushed. destruct (flushes rest); repeat constructor.
    by apply answers_emit. }
  destruct (lastIndexOf _ _); cbn; constructor;
    try (by apply answers_emit); [|apply Hflush].
  apply Forall_app_2; [apply forEach_lines_answers|apply Hflush].
Qed.

(** ** Invariants of the engine *)

Ltac fields :=
  cbn [state_of effects_of value_of fst snd
       printCalls debugOutput currentToken handlers buffer output promises
       set_currentToken set_handlers set_buffer set_output set_promises] in *.

Lemma perform_send_run command suppressFailure st :
  perform (SendCommand command suppressFailure) st =
    (tt, state_of (sendCommand command suppressFailure st),
     effects_of (sendCommand command suppressFailure st)).
Proof.
  cbn [perform]. rewrite bind_unfold.
  destruct (sendCommand command suppressFailure st) as [[p st1] e1].
  cbn. by rewrite app_nil_r.
Qed.

Lemma perform_all_invariant (I : MI2 → Prop) :
  (∀ a st, I st → I (state_of (perform a st))) →
  ∀ actions st, I st → I (state_of (perform_all actions st)).
Proof.
  intros Hstep actions. unfold perform_all.
  induction actions as [|a actions IH]; intros st HI; [done|].
  cbn [forEach]. rewrite bind_unfold.
  specialize (Hstep a st HI).
  destruct (perform a st) as [[u st1] e1].
  specialize (IH st1 Hstep).
  by destruct (forEach actions perform st1) as [[u' st2] e2].
Qed.

Lemma shrinks_promises_made st st' :
  shrinks st st' → promises_made st → promises_made st'.
Proof.
  intros (_&_&_&Hp&Hsub) H tok h Hh. rewrite Hp.
  eapply H, lookup_weaken; eauto.
Qed.

Lemma shrinks_promises_distinct st st' :
  shrinks st st' → promises_distinct st → promises_distinct st'.
Proof.
  intros (_&_&_&_&Hsub) H t1 t2 h1 h2 H1 H2.
  eapply H; eapply lookup_weaken; eauto.
Qed.

Lemma shrinks_tokens_drawn st st' :
  shrinks st st' → tokens_drawn st → tokens_drawn st'.
Proof.
  intros (_&_&Ht&_&Hsub) [Hle H]. unfold tokens_drawn. rewrite Ht. split; [done|].
  intros tok h Hh. eapply H, lookup_weaken; eauto.
Qed.

Lemma shrinks_settled_for_good p st st' :
  shrinks st st' → settled_for_good p st → settled_for_good p st'.
Proof.
  intros (_&_&_&Hp&Hsub) [Hlt H]. unfold settled_for_good. rewrite Hp. split; [done|].
  intros tok h Hh. eapply H, lookup_weaken; eauto.
Qed.

Lemma perform_shrinks_or_sends a st :
  (∃ command suppressFailure, a = SendCommand command suppressFailure) ∨
  shrinks st (state_of (perform a st)).
Proof.
  destruct a as [c s|raw|data]; [left; eauto|right..]; cbn [perform].
  - rewrite sendRaw_run. apply shrinks_refl.
  - apply stdout_shrinks.
Qed.

Lemma js_incr_le n : n ≤ MAX_SAFE → js_incr n ≤ MAX_SAFE.
Proof. unfold js_incr. destruct (N.ltb_spec n MAX_SAFE); lia. Qed.

Lemma perform_promises_made a st :
  promises_made st → promises_made (state_of (perform a st)).
Proof.
  intros H. destruct (perform_shrinks_or_sends a st) as [(c & s & ->)|Hs];
    [|by eapply shrinks_promises_made].
  rewrite perform_send_run, sendCommand_run.
  unfold promises_made, promises_distinct, tokens_drawn, settled_for_good in *. fields.
  intros tok h. destruct (decide (tok = currentToken st)) as [->|Hne].
  - rewrite lookup_insert_eq. intros [= <-]. cbn. lia.
  - rewrite lookup_insert_ne by done. intros Hh. apply H in Hh. lia.
Qed.

Lemma perform_promises_distinct a st :
  promises_made st → promises_distinct st →
  promises_distinct (state_of (perform a st)).
Proof.
  intros Hm H. destruct (perform_shrinks_or_sends a st) as [(c & s & ->)|Hs];
    [|by eapply shrinks_promises_distinct].
  rewrite perform_send_run, sendCommand_run.
  unfold promises_made, promises_distinct, tokens_drawn, settled_for_good in *. fields.
  intros t1 t2 h1 h2.
  destruct (decide (t1 = currentToken st)) as [->|Hne1];
    destruct (decide (t2 = currentToken st)) as [->|Hne2]; [done|..].
  - rewrite lookup_insert_eq, lookup_insert_ne by done.
    intros [= <-] H2 Heq. apply Hm in H2. cbn in Heq. lia.
  - rewrite lookup_insert_eq, lookup_insert_ne by done.
    intros H1 [= <-] Heq. apply Hm in H1. cbn in Heq. lia.
  - rewrite !lookup_insert_ne by done. apply H.
Qed.

Lemma perform_tokens_drawn a st :
  tokens_drawn st → tokens_drawn (state_of (perform a st)).
Proof.
  intros [Hle H]. destruct (perform_shrinks_or_sends a st) as [(c & s & ->)|Hs];
    [|by eapply shrinks_tokens_drawn].
  rewrite perform_send_run, sendCommand_run.
  unfold promises_made, promises_distinct, tokens_drawn, settled_for_good in *. fields.
  split; [by apply js_incr_le|].
  intros tok h. unfold js_incr.
  destruct (decide (tok = currentToken st)) as [->|Hne].
  - intros _. destruct (N.ltb_spec (currentToken st) MAX_SAFE); lia.
  - rewrite lookup_insert_ne by done. intros Hh. apply H in Hh.
    destruct (N.ltb_spec (currentToken st) MAX_SAFE); lia.
Qed.

Lemma Forall_no_settle p st es :
  settled_for_good p st → Forall (answers st) es →
  Forall (λ e, settles p e = false) es.
Proof.
  intros [_ H] Hes. eapply Forall_impl; [exact Hes|].
  intros e He. destruct (settles p e) eqn:E; [|done].
  destruct (He p E) as (tok & h & Hh & Heq). by apply H in Hh.
Qed.

Lemma perform_settled_for_good p a st :
  settled_for_good p st →
  settled_for_good p (state_of (perform a st)) ∧
  Forall (λ e, settles p e = false) (effects_of (perform a st)).
Proof.
  intros Hp. destruct a as [c s|raw|data].
  - rewrite perform_send_run, sendCommand_run.
  unfold promises_made, promises_distinct, tokens_drawn, settled_for_good in *. fields.
    destruct Hp as [Hlt H]. split; [split; [lia|]|].
    + intros tok h. destruct (decide (tok = currentToken st)) as [->|Hne].
      * rewrite lookup_insert_eq. intros [= <-]. cbn. lia.
      * rewrite lookup_insert_ne by done. apply H.
    + destruct (printCalls st); repeat constructor.
  - cbn [perform]. rewrite sendRaw_run. split; [done|].
    cbn. destruct (printCalls st); repeat constructor.
  - cbn [perform]. split.
    + eapply shrinks_settled_for_good; [apply stdout_shrinks|done].
    + eapply Forall_no_settle; [done|apply stdout_answers].
Qed.

Lemma perform_all_settled_for_good p actions st :
  settled_for_good p st →
  settled_for_good p (state_of (perform_all actions st)) ∧
  Forall (λ e, settles p e = false) (effects_of (perform_all actions st)).
Proof.
  unfold perform_all. revert st.
  induction actions as [|a actions IH]; intros st Hp; [by split; [|constructor]|].
  cbn [forEach]. rewrite bind_unfold.
  destruct (perform_settled_for_good p a st Hp) as [H1 H2].
  destruct (perform a st) as [[u st1] e1].
  destruct (IH st1 H1) as [H3 H4].
  destruct (forEach actions perform st1) as [[u' st2] e2].
  split; [done|]. by apply Forall_app_2.
Qed.

Lemma new_MI2_invariants pc dbg :
  promises_made (new_MI2 pc dbg) ∧ promises_distinct (new_MI2 pc dbg) ∧
  tokens_drawn (new_MI2 pc dbg).
Proof.
  split_and!; try (intros ? *; cbn; by rewrite ?lookup_empty).
  split; [by vm_compute|]. intros ? *; cbn; by rewrite ?lookup_empty.
Qed.

Lemma reachable_invariants pc dbg actions :
  let st := state_of (perform_all actions (new_MI2 pc dbg)) in
  promises_made st ∧ promises_distinct st ∧ tokens_drawn st.
Proof.
  cbv zeta.
  pose proof (perform_all_invariant
                (λ st, promises_made st ∧ promises_distinct st ∧ tokens_drawn st)) as H.
  apply H; [|apply new_MI2_invariants].
  intros a st (Hm & Hd & Ht). split_and!.
  - by apply perform_promises_made.
  - by apply perform_promises_distinct.
  - by apply perform_tokens_drawn.
Qed.

(** The counter after a run: one more for each command sent, until it
    cannot count any further. *)
Lemma perform_all_currentToken actions st :
  currentToken st ≤ MAX_SAFE →
  currentToken (state_of (perform_all actions st)) =
    N.min MAX_SAFE (currentToken st + count_sends actions).
Proof.
  unfold perform_all. revert st.
  induction actions as [|a actions IH]; intros st Hle.
  - cbn. lia.
  - cbn [forEach]. rewrite bind_unfold.
    assert (Hother : shrinks st (state_of (perform a st)) →
                     count_sends (a :: actions) = count_sends actions →
                     currentToken
                       (state_of (let '(_, st1, e1) := perform a st in
                                  let '(b, st2, e2) := forEach actions perform st1 in
                                  (b, st2, e1 ++ e2))) =
                     N.min MAX_SAFE (currentToken st + count_sends (a :: actions))).
    { intros (_&_&Ht&_) ->.
      destruct (perform a st) as [[u st1] e1]. fields.
      specialize (IH st1).
      destruct (forEach actions perform st1) as [[u' st2] e2].
      fields. rewrite IH by lia. by rewrite Ht. }
    destruct a as [c s|raw|data].
    + rewrite perform_send_run, sendCommand_run. fields.
      match goal with |- context [forEach actions perform ?s] =>
        specialize (IH s); destruct (forEach actions perform s) as [[u' st2] e2] end.
      fields. rewrite IH by (by apply js_incr_le).
      cbn [count_sends].
      unfold js_incr. destruct (N.ltb_spec (currentToken st) MAX_SAFE); lia.
    + apply Hother; [|done]. cbn [perform]. rewrite sendRaw_run. apply shrinks_refl.
    + apply Hother; [|done]. apply stdout_shrinks.
Qed.

(** ** The command correlator *)

Lemma append_assoc (a b c : string) : (a +:+ b) +:+ c = a +:+ (b +:+ c).
Proof.
  induction a as [|x a IH]; [done|].
  change ((String x a +:+ b) +:+ c) with (String x ((a +:+ b) +:+ c)).
  by rewrite IH.
Qed.

Lemma stdin_lines_app es1 es2 :
  stdin_lines (es1 ++ es2) = stdin_lines es1 ++ stdin_lines es2.
Proof.
  induction es1 as [|e es1 IH]; [done|]. destruct e; cbn; by rewrite ?IH.
Qed.

(** C1. Whatever happened to an engine before, as long as fewer than
    2^53 - 1 commands were sent (beyond that a JavaScript number no
    longer counts), [sendCommand] draws the token 1 + the number of
    commands sent before, so 1 at first and one more each time; the
    line it writes to the subprocess is exactly the decimal token, a
    dash, the command and a newline; no pending command has that token;
    and the command is now pending under it. *)
Theorem sendCommand_wire_line pc dbg (before : list Action) command suppressFailure :
  1 + count_sends before < MAX_SAFE →
  let st := state_of (perform_all before (new_MI2 pc dbg)) in
  let r := sendCommand command suppressFailure st in
  let tok := 1 + count_sends before in
  currentToken st = tok ∧
  stdin_lines (effects_of r) = [pretty tok +:+ "-" +:+ command +:+ NL] ∧
  handlers st !! tok = None ∧
  handlers (state_of r) !! tok =
    Some {| h_command := command; h_suppressFailure := suppressFailure;
            h_promise := value_of r |} ∧
  currentToken (state_of r) = tok + 1.
Proof.
  intros Hlt. cbv zeta.
  set (st := state_of (perform_all before (new_MI2 pc dbg))).
  assert (Htok : currentToken st = 1 + count_sends before).
  { unfold st. rewrite perform_all_currentToken by (by vm_compute).
    cbn [currentToken new_MI2]. lia. }
  destruct (reachable_invariants pc dbg before) as (_ & _ & _ & Hdrawn).
  fold st in Hdrawn.
  rewrite sendCommand_run, <- Htok. fields. split_and!.
  - done.
  - rewrite stdin_lines_app. destruct (printCalls st); cbn [stdin_lines app];
      by rewrite !append_assoc.
  - destruct (handlers st !! currentToken st) as [h|] eqn:Hh; [|done].
    apply Hdrawn in Hh. lia.
  - by rewrite lookup_insert_eq.
  - unfold js_incr. destruct (N.ltb_spec (currentToken st) MAX_SAFE); lia.
Qed.

Lemma filter_settlement_none es :
  Forall (λ e, is_settlement e = false) es →
  filter (λ e, is_settlement e = true) es = [].
Proof.
  induction 1 as [|e es He _ IH]; [done|].
  rewrite filter_cons_False by congruence. done.
Qed.

Lemma log_effects_emit (b : bool) (type msg : string) :
  Forall (λ e, is_settlement e = false)
    (if b then [Emit "msg" (MsgArgs type msg)] else []).
Proof. destruct b; repeat constructor. Qed.

(** The one settlement of an answered line. *)
Lemma run_handler_settlement h node :
  filter (λ e, is_settlement e = true) (effects_in (run_handler h node)) =
    [if is_error node && negb (h_suppressFailure h)
     then Reject (h_promise h)
            {| message := js_or (result node "msg") "Internal error";
               source := h_command h |}
     else Resolve (h_promise h) node].
Proof.
  unfold effects_in, run_handler.
  by destruct (is_error node), (h_suppressFailure h).
Qed.

Lemma onOutput_line_settlement line st tok h :
  couldBeOutput line = false →
  pending st (parseMI line) = Some (tok, h) →
  let node := set_node_output
                (output st ++ map content (outOfBandRecord (parseMI line)))
                (parseMI line) in
  filter (λ e, is_settlement e = true) (effects_of (onOutput_line line st)) =
    [if is_error (parseMI line) && negb (h_suppressFailure h)
     then Reject (h_promise h)
            {| message := js_or (result (parseMI line) "msg") "Internal error";
               source := h_command h |}
     else Resolve (h_promise h) node].
Proof.
  intros Hc Hp. cbv zeta. rewrite onOutput_line_inband, Hp by done.
  cbv zeta. unfold effects_of. cbn [snd].
  rewrite !filter_app, run_handler_settlement.
  rewrite (filter_settlement_none (records_effects _)) by apply records_effects_emit.
  rewrite filter_settlement_none by apply log_effects_emit.
  done.
Qed.

Lemma pending_intro st parsed tok h :
  token parsed = Some tok → handlers st !! tok = Some h →
  pending st parsed = Some (tok, h).
Proof. unfold pending. by intros -> ->. Qed.

(** C2. On an engine in any reachable state, a line whose record carries
    the token of a pending command settles that command's promise, and
    nothing else, exactly once; the token leaves the table of pending
    commands with that line; and whatever the engine is made to do
    afterwards (more output, with the same token or not, more commands)
    never settles that promise again. *)
Theorem reply_settles_once pc dbg (before later : list Action) line tok h :
  let st := state_of (perform_all before (new_MI2 pc dbg)) in
  couldBeOutput line = false →
  token (parseMI line) = Some tok →
  handlers st !! tok = Some h →
  let r := onOutput_line line st in
  (∃ e, filter (λ e, is_settlement e = true) (effects_of r) = [e] ∧
        settles (h_promise h) e = true) ∧
  handlers (state_of r) = delete tok (handlers st) ∧
  handlers (state_of r) !! tok = None ∧
  Forall (λ e, settles (h_promise h) e = false)
    (effects_of (perform_all later (state_of r))).
Proof.
  cbv zeta. set (st := state_of (perform_all before (new_MI2 pc dbg))).
  intros Hc Htok Hh.
  pose proof (pending_intro st _ _ _ Htok Hh) as Hp.
  destruct (reachable_invariants pc dbg before) as (Hmade & Hdistinct & _).
  fold st in Hmade, Hdistinct.
  assert (Hstate : state_of (onOutput_line line st)
                   = set_output [] (set_handlers (delete tok (handlers st)) st)).
  { rewrite onOutput_line_inband, Hp by done. done. }
  split_and!.
  - eexists. split; [by apply (onOutput_line_settlement line st tok h)|].
    destruct (_ && _); cbn; apply Nat.eqb_refl.
  - by rewrite Hstate.
  - rewrite Hstate. fields. apply lookup_delete_eq.
  - apply perform_all_settled_for_good. rewrite Hstate.
    split; fields; [by apply Hmade in Hh|].
    intros tok' h' Hh' Heq.
    destruct (decide (tok' = tok)) as [->|Hne].
    + by rewrite lookup_delete_eq in Hh'.
    + rewrite lookup_delete_ne in Hh' by done.
      by pose proof (Hdistinct _ _ _ _ Hh' Hh Heq).
Qed.

(** ** The event router *)

(** C7. An exec record of async class stopped raises exec-async-output,
    logs the reason, raises the event of its reason -- breakpoint,
    step-end, step-out-end, signal-stop or exited-normally, for exited
    the exit code logged and exited-normally, for any other or no reason
    the unimplemented-reason log and stopped -- and then generic-stopped,
    exactly once. *)
Theorem stopped_record_events parsed rec st :
  isStream rec = false → type rec = "exec" → asyncClass rec = Some "stopped" →
  let r := onOutput_record parsed rec st in
  effects_of r =
    [Emit "exec-async-output" (NodeArg parsed);
     Emit "msg" (MsgArgs "stderr"
       (with_newline ("stop: " +:+ js_str (record parsed "reason"))))] ++
    stop_reason_effects parsed ++
    [Emit "generic-stopped" (NodeArg parsed)] ∧
  count_event "generic-stopped" (effects_of r) = 1%nat ∧
  state_of r = set_output [] st.
Proof.
  intros Hstream Htype Hclass. cbv zeta.
  rewrite onOutput_record_run, Hstream. unfold effects_of, state_of. cbn [fst snd].
  unfold effects_in, onOutput_record. rewrite Hstream, Htype, Hclass.
  unfold stop_reason_effects, unimplemented_stop, stop_event_of.
  rewrite (bool_decide_eq_false_2 (Some "stopped" = Some "running")) by done.
  rewrite (bool_decide_eq_true_2 (Some "stopped" = Some "stopped")) by done.
  change (String.eqb "exec" "exec") with true. cbv iota.
  destruct (record parsed "reason") as [reason|]; [|by split_and!].
  repeat (case_bool_decide as Hr;
          [injection Hr as ->; by split_and!
          |assert (∀ x, reason = x → Some reason = Some x) as Hx by congruence;
           match type of Hr with Some reason ≠ Some ?lit =>
             assert (String.eqb reason lit = false) as ->
               by (apply String.eqb_neq; intros E; by apply Hr, Hx)
           end; clear Hx Hr]).
  by split_and!.
Qed.

(** ** Replies *)

Lemma rejects_settlement p e : rejects p e = true → is_settlement e = true.
Proof. by destruct e. Qed.

Lemma Exists_rejects_filter p es :
  Exists (λ e, rejects p e = true) es ↔
  Exists (λ e, rejects p e = true) (filter (λ e, is_settlement e = true) es).
Proof.
  induction es as [|e es IH]; [done|].
  rewrite filter_cons. rewrite Exists_cons, IH.
  destruct (decide (is_settlement e = true)) as [He|He].
  - by rewrite Exists_cons.
  - split; [|by right]. intros [H|H]; [|done].
    by apply rejects_settlement in H.
Qed.

Lemma is_error_set_node_output out node :
  is_error (set_node_output out node) = is_error node.
Proof. reflexivity. Qed.

Lemma js_or_spec x d :
  (∀ m, x = Some m → m ≠ EmptyString → js_or x d = m) ∧
  (x = None ∨ x = Some EmptyString → js_or x d = d).
Proof.
  split.
  - intros m -> Hm. by destruct m.
  - by intros [->| ->].
Qed.

(** C3, as amended. The promise of a command rejects exactly when the
    line that answers it is a result record of class error and failure
    suppression was not asked for. The failure then carries the command
    text and, for its message, the msg field of the reply when that is
    a non-empty string, the literal Internal error when msg is absent or
    empty. With suppression and class error a warning goes to the stderr
    channel and the promise resolves with the record; in every other
    case it resolves with the record. *)
Theorem error_reply_rejects st line tok h :
  couldBeOutput line = false →
  token (parseMI line) = Some tok →
  handlers st !! tok = Some h →
  let parsed := parseMI line in
  let node := set_node_output
                (output st ++ map content (outOfBandRecord parsed)) parsed in
  let es := effects_of (onOutput_line line st) in
  let settled := filter (λ e, is_settlement e = true) es in
  (Exists (λ e, rejects (h_promise h) e = true) es ↔
     is_error parsed = true ∧ h_suppressFailure h = false) ∧
  (is_error parsed = true → h_suppressFailure h = false →
     ∃ message,
       settled = [Reject (h_promise h)
                    {| message := message; source := h_command h |}] ∧
       (∀ m, result parsed "msg" = Some m → m ≠ EmptyString → message = m) ∧
       (result parsed "msg" = None ∨ result parsed "msg" = Some EmptyString →
        message = "Internal error")) ∧
  (is_error parsed = true → h_suppressFailure h = true →
     settled = [Resolve (h_promise h) node] ∧
     Emit "msg" (MsgArgs "stderr"
       (with_newline ("WARNING: Error executing command '" +:+ h_command h +:+ "'")))
       ∈ es) ∧
  (is_error parsed = false → settled = [Resolve (h_promise h) node]).
Proof.
  intros Hc Htok Hh. cbv zeta.
  pose proof (pending_intro st _ _ _ Htok Hh) as Hp.
  pose proof (onOutput_line_settlement line st tok h Hc Hp) as Hset.
  cbv zeta in Hset. split_and!.
  - rewrite Exists_rejects_filter, Hset.
    destruct (is_error (parseMI line)), (h_suppressFailure h); cbn;
      rewrite Exists_cons, Exists_nil; cbn; rewrite ?Nat.eqb_refl; intuition congruence.
  - intros He Hs. rewrite Hset, He, Hs. eexists. split; [done|].
    apply js_or_spec.
  - intros He Hs. rewrite Hset, He, Hs. split; [done|].
    rewrite onOutput_line_inband, Hp by done. cbv zeta.
    unfold effects_of. cbn [snd]. rewrite !elem_of_app. right. left.
    unfold effects_in, run_handler. rewrite is_error_set_node_output, He, Hs.
    cbn. left.
  - intros He. by rewrite Hset, He.
Qed.

(** C9, as amended. An in-band line of result class error that answers
    no pending command is logged to the stderr channel -- the msg field
    when that is a non-empty string, the whole line when msg is absent
    or empty -- settles no promise and leaves the table of pending
    commands as it was. *)
Theorem unanswered_error_is_logged st line :
  couldBeOutput line = false →
  is_error (parseMI line) = true →
  pending st (parseMI line) = None →
  let parsed := parseMI line in
  let r := onOutput_line line st in
  (∃ text,
     Emit "msg" (MsgArgs "stderr" (with_newline text)) ∈ effects_of r ∧
     (∀ m, result parsed "msg" = Some m → m ≠ EmptyString → text = m) ∧
     (result parsed "msg" = None ∨ result parsed "msg" = Some EmptyString →
      text = line)) ∧
  filter (λ e, is_settlement e = true) (effects_of r) = [] ∧
  handlers (state_of r) = handlers st.
Proof.
  intros Hc He Hp. cbv zeta. rewrite onOutput_line_inband, Hp, He by done.
  cbv zeta. unfold effects_of, state_of. cbn [fst snd]. split_and!.
  - eexists. split; [|apply js_or_spec].
    rewrite !elem_of_app. right. left. apply list_elem_of_singleton. done.
  - apply filter_settlement_none. apply Forall_app_2; [apply log_effects_emit|].
    apply Forall_app_2; [repeat constructor|apply records_effects_emit].
  - done.
Qed.

Lemma all_stream_text parsed :
  all_stream parsed = true →
  map content (outOfBandRecord parsed) = stream_text parsed.
Proof.
  unfold all_stream, stream_text.
  induction (outOfBandRecord parsed) as [|r recs IH]; [done|].
  cbn [forallb]. intros [Hr Hrecs]%andb_true_iff.
  rewrite filter_cons_True by done. cbn. by rewrite IH.
Qed.

Lemma delivered_app es1 es2 : delivered (es1 ++ es2) = delivered es1 ++ delivered es2.
Proof. induction es1 as [|e es1 IH]; [done|]. destruct e; cbn; by rewrite ?IH. Qed.

Lemma delivered_emits es :
  Forall (λ e, is_settlement e = false) es → delivered es = [].
Proof. induction 1 as [|e es He _ IH]; [done|]. by destruct e. Qed.

(** C8, as amended. The text of stream records is appended to the
    unattached-output buffer; a line that carries a record of another
    kind leaves the buffer empty; and when a line whose records, if any,
    are all of stream kind answers a pending command, the record its
    promise resolves with carries the buffer as it was followed by the
    stream text of the line itself -- the stream text accumulated since
    the previous resolution or the last record of another kind,
    whichever came later -- the buffer being emptied at that point.
    Program output leaves the buffer alone. *)
Theorem unattached_output st line :
  let parsed := parseMI line in
  let r := onOutput_line line st in
  (couldBeOutput line = true → output (state_of r) = output st) ∧
  (couldBeOutput line = false → all_stream parsed = false →
     output (state_of r) = []) ∧
  (couldBeOutput line = false → all_stream parsed = true →
     pending st parsed = None →
     output (state_of r) = output st ++ stream_text parsed ∧
     delivered (effects_of r) = []) ∧
  (couldBeOutput line = false → all_stream parsed = true →
     ∀ tok h, pending st parsed = Some (tok, h) →
     output (state_of r) = [] ∧
     delivered (effects_of r) =
       if is_error parsed && negb (h_suppressFailure h) then []
       else [(h_promise h, output st ++ stream_text parsed)]).
Proof.
  cbv zeta. split_and!.
  - intros Hc. by rewrite onOutput_line_passthrough.
  - intros Hc Hall. rewrite onOutput_line_inband by done. cbv zeta.
    destruct (pending st (parseMI line)) as [[tok h]|]; [done|].
    by rewrite Hall.
  - intros Hc Hall Hp. rewrite onOutput_line_inband, Hp, Hall by done.
    cbv zeta. unfold effects_of, state_of. cbn [fst snd set_output output].
    rewrite all_stream_text by done. split; [done|].
    apply delivered_emits. apply Forall_app_2; [apply log_effects_emit|].
    apply Forall_app_2; [|apply records_effects_emit].
    destruct (is_error _); repeat constructor.
  - intros Hc Hall tok h Hp. rewrite onOutput_line_inband, Hp by done.
    cbv zeta. unfold effects_of, state_of. cbn [fst snd set_output output].
    split; [done|]. rewrite !delivered_app.
    rewrite (delivered_emits (records_effects _)) by apply records_effects_emit.
    rewrite delivered_emits by apply log_effects_emit.
    rewrite all_stream_text by done.
    unfold effects_in, run_handler. rewrite is_error_set_node_output.
    by destruct (is_error (parseMI line)), (h_suppressFailure h).
Qed.

(** ** Chunks *)

Lemma channel_lines_app ch es1 es2 :
  channel_lines ch (es1 ++ es2) = channel_lines ch es1 ++ channel_lines ch es2.
Proof.
  induction es1 as [|e es1 IH]; [done|].
  destruct e as [name [| c t | |]| | |]; cbn [channel_lines app]; try done.
  destruct (_ && _); cbn [app]; by rewrite IH.
Qed.


Lemma state_of_forEach_lines_buffer b lines st :
  state_of (forEach lines onOutput_line (set_buffer b st)) =
    set_buffer b (state_of (forEach lines onOutput_line st)).
Proof.
  rewrite forEach_lines_buffer.
  by destruct (forEach lines onOutput_line st) as [[u st1] e1].
Qed.

Lemma effects_of_forEach_lines_buffer b lines st :
  effects_of (forEach lines onOutput_line (set_buffer b st)) =
    effects_of (forEach lines onOutput_line st).
Proof.
  rewrite forEach_lines_buffer.
  by destruct (forEach lines onOutput_line st) as [[u st1] e1].
Qed.

Lemma forEach_lines_app l1 l2 st :
  let r1 := forEach l1 onOutput_line st in
  let r2 := forEach l2 onOutput_line (state_of r1) in
  forEach (l1 ++ l2) onOutput_line st = (tt, state_of r2, effects_of r1 ++ effects_of r2).
Proof.
  cbv zeta. revert st. induction l1 as [|l l1 IH]; intros st.
  - cbn. by destruct (forEach l2 onOutput_line st) as [[[] st2] e2].
  - cbn [forEach app]. rewrite !bind_unfold.
    destruct (onOutput_line l st) as [[u st1] e1]. rewrite IH.
    destruct (forEach l1 onOutput_line st1) as [[u1 st2] e2].
    unfold state_of, effects_of. cbn [fst snd].
    destruct (forEach l2 onOutput_line st2) as [[u2 st3] e3].
    cbn [fst snd]. by rewrite app_assoc.
Qed.

Lemma seq_state (m k : M unit) st :
  state_of ((m ;; k) st) = state_of (k (state_of (m st))).
Proof.
  rewrite bind_unfold. destruct (m st) as [[u st1] e1].
  unfold state_of. cbn [fst snd]. by destruct (k st1) as [[u' st2] e2].
Qed.

Lemma seq_effects (m k : M unit) st :
  effects_of ((m ;; k) st) = effects_of (m st) ++ effects_of (k (state_of (m st))).
Proof.
  rewrite bind_unfold. destruct (m st) as [[u st1] e1].
  unfold state_of, effects_of. cbn [fst snd]. by destruct (k st1) as [[u' st2] e2].
Qed.








(** ** Breakpoints *)

Lemma addBreakPoint_run breakpoint st :
  addBreakPoint breakpoint st =
    (let '(location, st1, es) := breakpoint_location breakpoint st in
     let trace := Emit "msg" (MsgArgs "stderr" ("addBreakPoint" +:+ NL)) in
     match location with
     | inl e => (inl e, st1, trace :: es)
     | inr location =>
         let r := sendCommand ("break-insert " +:+ location) false st1 in
         (inr (value_of r), state_of r, trace :: es ++ effects_of r)
     end).
Proof.
  unfold addBreakPoint. erewrite bind_run by apply log_run.
  rewrite bind_unfold.
  destruct (breakpoint_location breakpoint st) as [[[e|location] st1] es].
  - cbn. by rewrite app_nil_r.
  - rewrite bind_unfold.
    destruct (sendCommand _ false st1) as [[p st2] es2].
    cbn. by rewrite app_nil_r.
Qed.

(** C5, on the code. A count condition [>3] puts the ignore count
    [-i 3] in front of the location, [5] puts [-t -i 5] there, and the
    command goes out with it. A count condition without any digit, as
    [abc], makes the promise executor throw: [numRegex.exec] gives
    [null], whose element 0 is read. No warning is logged and nothing is
    written to the subprocess. *)
Theorem count_condition_flags file line raw condition st :
  let bp := λ cc, {| Breakpoint.file := file; Breakpoint.line := line;
                     Breakpoint.raw := raw; Breakpoint.condition := condition;
                     Breakpoint.countCondition := Some cc |} in
  let target := location_target (bp EmptyString) in
  stdin_lines (effects_of (addBreakPoint (bp ">3") st)) =
    [wire_line (currentToken st) ("break-insert -i 3 " +:+ target)] ∧
  stdin_lines (effects_of (addBreakPoint (bp "5") st)) =
    [wire_line (currentToken st) ("break-insert -t -i 5 " +:+ target)] ∧
  addBreakPoint (bp "abc") st =
    (inl TypeError, st, [Emit "msg" (MsgArgs "stderr" ("addBreakPoint" +:+ NL))]).
Proof.
  cbv zeta.
  set (bp := λ cc, {| Breakpoint.file := file; Breakpoint.line := line;
                      Breakpoint.raw := raw; Breakpoint.condition := condition;
                      Breakpoint.countCondition := Some cc |}).
  assert (H3 : breakpoint_location (bp ">3") st
               = (inr ("-i 3 " +:+ location_target (bp EmptyString)), st, []))
    by reflexivity.
  assert (H5 : breakpoint_location (bp "5") st
               = (inr ("-t -i 5 " +:+ location_target (bp EmptyString)), st, []))
    by reflexivity.
  assert (Habc : breakpoint_location (bp "abc") st = (inl TypeError, st, []))
    by reflexivity.
  rewrite !addBreakPoint_run, H3, H5, Habc, !sendCommand_run.
  unfold effects_of, wire_line. cbn [snd app stdin_lines].
  rewrite !stdin_lines_app. split_and!; [..|done];
    by destruct (printCalls st).
Qed.

(** A count condition with a digit and something else, as [5x], is the
    case the warning was written for. *)
Lemma count_condition_mixed file line raw condition st :
  let bp := {| Breakpoint.file := file; Breakpoint.line := line;
               Breakpoint.raw := raw; Breakpoint.condition := condition;
               Breakpoint.countCondition := Some "5x" |} in
  stdin_lines (effects_of (addBreakPoint bp st)) =
    [wire_line (currentToken st) ("break-insert -t " +:+ location_target bp)] ∧
  length (channel_lines "stderr" (effects_of (addBreakPoint bp st))) = 2%nat.
Proof.
  cbv zeta.
  set (bp := {| Breakpoint.file := file; Breakpoint.line := line;
                Breakpoint.raw := raw; Breakpoint.condition := condition;
                Breakpoint.countCondition := Some "5x" |}).
  assert (H : ∃ warning,
            breakpoint_location bp st
            = (inr ("-t " +:+ location_target bp), st,
               [Emit "msg" (MsgArgs "stderr" warning)]))
    by (eexists; reflexivity).
  destruct H as [warning H].
  rewrite !addBreakPoint_run, H, !sendCommand_run.
  unfold effects_of, wire_line. cbn [snd app stdin_lines channel_lines].
  rewrite !stdin_lines_app, channel_lines_app.
  by destruct (printCalls st).
Qed.

(** C10. The count condition [0] gives no flag at all: [addBreakPoint]
    does exactly what it does without a count condition, the same
    command on the wire included. *)
Theorem count_zero_is_no_count file line raw condition st :
  addBreakPoint {| Breakpoint.file := file; Breakpoint.line := line;
                   Breakpoint.raw := raw; Breakpoint.condition := condition;
                   Breakpoint.countCondition := Some "0" |} st =
  addBreakPoint {| Breakpoint.file := file; Breakpoint.line := line;
                   Breakpoint.raw := raw; Breakpoint.condition := condition;
                   Breakpoint.countCondition := None |} st.
Proof. reflexivity. Qed.

(** ** The classifier *)

(** C4, as amended. A complete line is in-band exactly when it begins
    with a run of digits (possibly none) or the word undefined followed
    at once by one of [* + =], or has one of [~ @ & ^] anywhere in it.
    Every other line is program output: it goes to the stdout channel
    with a newline at its end and changes nothing in the engine, unless
    the prompt [(gdb)] occurs in it, in which case nothing happens at
    all. *)
Theorem line_classification line st :
  (couldBeOutput line = false ↔ in_band line = true) ∧
  (in_band line = false →
   onOutput_line line st =
     (tt, st,
      if occurs "(gdb)" line then []
      else [Emit "msg" (MsgArgs "stdout" (with_newline line))])).
Proof.
  rewrite couldBeOutput_in_band. split.
  - by destruct (in_band line).
  - intros H. apply onOutput_line_passthrough.
    by rewrite couldBeOutput_in_band, H.
Qed.

(** ** Strings cut at newlines *)

Lemma append_cons c (a b : string) : String c a +:+ b = String c (a +:+ b).
Proof. reflexivity. Qed.

Lemma append_nil_r (a : string) : a +:+ EmptyString = a.
Proof. induction a as [|x a IH]; [done|]. by rewrite append_cons, IH. Qed.

Lemma substring_0_full s : String.substring 0 (String.length s) s = s.
Proof. induction s as [|c s IH]; [done|]. cbn. by rewrite IH. Qed.

Lemma substr_from_1 c s : substr_from 1 (String c s) = s.
Proof.
  unfold substr_from. cbn. rewrite Nat.sub_0_r. apply substring_0_full.
Qed.

Lemma substr_from_S n c s : substr_from (S n) (String c s) = substr_from n s.
Proof. reflexivity. Qed.

Lemma substr_from_0 s : substr_from 0 s = s.
Proof. unfold substr_from. rewrite Nat.sub_0_r. apply substring_0_full. Qed.

(** A text with a [c] in it is what stands before the last [c], that
    [c], and a rest without any. *)
Lemma lastIndexOf_cut c s e :
  lastIndexOf c s = Some e →
  s = String.substring 0 e s +:+ String c (substr_from (S e) s) ∧
  lastIndexOf c (substr_from (S e) s) = None.
Proof.
  revert e. induction s as [|d s IH]; intros e; [done|].
  cbn [lastIndexOf]. destruct (lastIndexOf c s) as [i|] eqn:Hi.
  - intros [= <-]. destruct (IH i eq_refl) as [Hs Hrest].
    rewrite substr_from_S. split; [|done].
    cbn [String.substring]. rewrite append_cons. by rewrite <- Hs.
  - destruct (Ascii.eqb_spec d c) as [->|]; [|done]. intros [= <-].
    rewrite substr_from_1. by split.
Qed.

Lemma lastIndexOf_app_cut c pre post :
  lastIndexOf c post = None →
  lastIndexOf c (pre +:+ String c post) = Some (String.length pre) ∧
  String.substring 0 (String.length pre) (pre +:+ String c post) = pre ∧
  substr_from (S (String.length pre)) (pre +:+ String c post) = post.
Proof.
  intros Hpost. induction pre as [|d pre (IH1 & IH2 & IH3)].
  - change (EmptyString +:+ String c post) with (String c post).
    cbn [lastIndexOf String.length]. rewrite Hpost, Ascii.eqb_refl.
    split_and!; [done..|]. apply substr_from_1.
  - rewrite append_cons. cbn [lastIndexOf String.length]. rewrite IH1.
    split_and!; [done| |].
    + cbn [String.substring]. by rewrite IH2.
    + by rewrite substr_from_S.
Qed.

Lemma lastIndexOf_app_None c a b :
  lastIndexOf c (a +:+ b) = None ↔ lastIndexOf c a = None ∧ lastIndexOf c b = None.
Proof.
  induction a as [|d a IH]; [by split; [|intros [_ ?]]|].
  rewrite append_cons. cbn [lastIndexOf].
  destruct (lastIndexOf c (a +:+ b)), (lastIndexOf c a), (lastIndexOf c b),
    (Ascii.eqb d c); intuition congruence.
Qed.

Lemma split_nonempty c s : split c s ≠ [].
Proof.
  destruct s as [|d s]; [done|]. cbn [split].
  destruct (Ascii.eqb d c); [done|]. by destruct (split c s).
Qed.

Lemma split_app c a b : split c (a +:+ String c b) = split c a ++ split c b.
Proof.
  induction a as [|d a IH].
  - change (EmptyString +:+ String c b) with (String c b).
    cbn [split]. by rewrite Ascii.eqb_refl.
  - rewrite append_cons. cbn [split]. rewrite IH.
    destruct (Ascii.eqb d c); [done|].
    pose proof (split_nonempty c a). by destruct (split c a).
Qed.

Lemma split_no_separator c s : lastIndexOf c s = None → split c s = [s].
Proof.
  induction s as [|d s IH]; [done|]. cbn [lastIndexOf split].
  destruct (lastIndexOf c s); [done|].
  destruct (Ascii.eqb d c); [done|]. intros _. by rewrite IH.
Qed.

Lemma split_pieces c s : Forall (λ piece, lastIndexOf c piece = None) (split c s).
Proof.
  induction s as [|d s IH]; [by repeat constructor|]. cbn [split].
  destruct (Ascii.eqb_spec d c) as [->|Hne]; [by constructor|].
  destruct (split c s) as [|piece pieces]; [repeat constructor; cbn|].
  - by destruct (Ascii.eqb_spec d c).
  - inversion IH as [|? ? Hp Hps]; subst. constructor; [|done].
    cbn [lastIndexOf]. rewrite Hp. by destruct (Ascii.eqb_spec d c).
Qed.

Lemma concat_split c s :
  concat_text (map (λ piece, piece +:+ String c EmptyString) (split c s)) =
    s +:+ String c EmptyString.
Proof.
  induction s as [|d s IH]; [done|]. cbn [split]. rewrite append_cons, <- IH.
  destruct (Ascii.eqb_spec d c) as [->|Hne]; [done|].
  pose proof (split_nonempty c s). by destruct (split c s).
Qed.

Lemma last_char_append_char s c : last_char (s +:+ String c EmptyString) = Some c.
Proof.
  induction s as [|d s IH]; [done|]. rewrite append_cons. cbn [last_char].
  rewrite IH. by destruct (s +:+ String c EmptyString).
Qed.

Lemma last_char_lastIndexOf c s : lastIndexOf c s = None → last_char s ≠ Some c.
Proof.
  induction s as [|d s IH]; [done|]. cbn [lastIndexOf last_char].
  destruct (lastIndexOf c s); [done|].
  destruct (Ascii.eqb_spec d c) as [|Hne]; [done|]. intros _.
  destruct s; [congruence|]. by apply IH.
Qed.

Lemma with_newline_line line :
  lastIndexOf "010" line = None → with_newline line = line +:+ NL.
Proof.
  intros H%last_char_lastIndexOf. unfold with_newline.
  destruct (last_char line) as [c|]; [|done].
  destruct (Ascii.eqb_spec c "010") as [->|]; [done|done].
Qed.

(** ** Chunks in general *)

Lemma stdout_cut data st pre post :
  js_str (buffer st) +:+ data = pre +:+ String "010" post →
  lastIndexOf "010" post = None →
  stdout data st =
    (tt, set_buffer (Some (held_back post)) (state_of (onOutput pre st)),
     chunk_echo data :: effects_of (onOutput pre st) ++ flushed post).
Proof.
  intros Hbuf Hpost. rewrite stdout_run. cbv zeta. rewrite Hbuf.
  destruct (lastIndexOf_app_cut "010" pre post Hpost) as (-> & -> & ->).
  done.
Qed.

Lemma stdout_uncut data st :
  lastIndexOf "010" (js_str (buffer st) +:+ data) = None →
  stdout data st =
    (tt, set_buffer (Some (held_back (js_str (buffer st) +:+ data))) st,
     chunk_echo data :: flushed (js_str (buffer st) +:+ data)).
Proof. intros H. rewrite stdout_run. cbv zeta. by rewrite H. Qed.

Lemma tail_after_newline_cut pre post :
  lastIndexOf "010" post = None →
  tail_after_newline (pre +:+ String "010" post) = post.
Proof.
  intros Hpost. unfold tail_after_newline.
  by destruct (lastIndexOf_app_cut "010" pre post Hpost) as (-> & _ & ->).
Qed.

Lemma held_back_kept rest : flushes rest = false → held_back rest = rest.
Proof. unfold held_back. by intros ->. Qed.

Lemma flushed_kept rest : flushes rest = false → flushed rest = [].
Proof. unfold flushed. by intros ->. Qed.

Lemma flushes_held_back rest : flushes (held_back rest) = false.
Proof. unfold held_back. by destruct (flushes rest) eqn:E. Qed.

(** [stdout] loses nothing and repeats nothing. The text it has after a
    chunk (what it held, then the chunk) is a row of complete lines and
    a rest without a newline; every one of these lines, and nothing
    else, goes to the line handler, in order; the rest is put on the
    stdout channel at once when it is program output, and is otherwise
    all that is kept for the next chunk. What is kept is therefore
    nothing, or the beginning of an in-band record. *)
Theorem stdout_hands_on_every_line data st :
  ∃ (lines : list string) (rest : string),
    js_str (buffer st) +:+ data =
      concat_text (map (λ line, line +:+ NL) lines) +:+ rest ∧
    Forall (λ line, lastIndexOf "010" line = None) lines ∧
    lastIndexOf "010" rest = None ∧
    stdout data st =
      (tt,
       set_buffer (Some (if flushes rest then EmptyString else rest))
         (state_of (forEach lines onOutput_line st)),
       chunk_echo data :: effects_of (forEach lines onOutput_line st) ++
       (if flushes rest then [Emit "msg" (MsgArgs "stdout" rest)] else [])) ∧
    (flushes rest = false → rest = EmptyString ∨ couldBeOutput rest = false).
Proof.
  assert (Hheld : ∀ rest, flushes rest = false →
                          rest = EmptyString ∨ couldBeOutput rest = false).
  { intros rest. unfold flushes. destruct rest as [|c rest]; [by left|].
    cbn [String.length Nat.eqb negb andb]. by right. }
  rewrite stdout_run. cbv zeta.
  destruct (lastIndexOf "010" (js_str (buffer st) +:+ data)) as [end_|] eqn:Hlast.
  - apply lastIndexOf_cut in Hlast as [Hcut Hrest].
    exists (split "010" (String.substring 0 end_ (js_str (buffer st) +:+ data))),
           (substr_from (S end_) (js_str (buffer st) +:+ data)).
    split_and!; [|apply split_pieces|done|done|apply Hheld].
    unfold NL. rewrite concat_split, append_assoc.
    rewrite append_cons. exact Hcut.
  - exists [], (js_str (buffer st) +:+ data).
    split_and!; [done|constructor|done|done|apply Hheld].
Qed.

Lemma onOutput_set_buffer b lines st :
  state_of (onOutput lines (set_buffer b st)) = set_buffer b (state_of (onOutput lines st)) ∧
  effects_of (onOutput lines (set_buffer b st)) = effects_of (onOutput lines st).
Proof.
  unfold onOutput.
  by rewrite state_of_forEach_lines_buffer, effects_of_forEach_lines_buffer.
Qed.

Lemma onOutput_two_texts pre1 pre2 st :
  state_of (onOutput (pre1 +:+ String "010" pre2) st) =
    state_of (onOutput pre2 (state_of (onOutput pre1 st))) ∧
  effects_of (onOutput (pre1 +:+ String "010" pre2) st) =
    effects_of (onOutput pre1 st) ++
    effects_of (onOutput pre2 (state_of (onOutput pre1 st))).
Proof.
  unfold onOutput. rewrite split_app, forEach_lines_app. by cbv zeta.
Qed.

(** Where a chunk ends does not matter, as long as its end was not
    flushed as program output: a chunk [p] whose unfinished last line is
    held back, followed by a chunk [q], leaves the engine as the single
    chunk [p ++ q] does, and apart from the echo of each chunk the
    effects are the same, in the same order. *)
Theorem stdout_chunks_compose p q st :
  flushes (tail_after_newline (js_str (buffer st) +:+ p)) = false →
  let r1 := stdout p st in
  let r2 := stdout q (state_of r1) in
  let r := stdout (p +:+ q) st in
  state_of r2 = state_of r ∧
  ∃ es1 es2,
    effects_of r1 = chunk_echo p :: es1 ∧
    effects_of r2 = chunk_echo q :: es2 ∧
    effects_of r = chunk_echo (p +:+ q) :: es1 ++ es2.
Proof.
  intros Hheld. cbv zeta.
  set (b := js_str (buffer st)) in *.
  assert (Hres : ∀ st' b', js_str (buffer (set_buffer (Some b') st')) = b') by done.
  destruct (lastIndexOf "010" (b +:+ p)) as [e|] eqn:Hp.
  - (* the first chunk completes lines *)
    destruct (lastIndexOf_cut _ _ _ Hp) as [Hcut Hpost].
    set (pre := String.substring 0 e (b +:+ p)) in *.
    set (post := substr_from (S e) (b +:+ p)) in *.
    rewrite Hcut, tail_after_newline_cut in Hheld by done.
    rewrite (stdout_cut p st pre post Hcut Hpost).
    rewrite (held_back_kept _ Hheld), (flushed_kept _ Hheld), app_nil_r.
    cbn [state_of effects_of fst snd].
    set (st1 := state_of (onOutput pre st)).
    assert (Hall : b +:+ (p +:+ q) = pre +:+ String "010" (post +:+ q)).
    { rewrite <- append_assoc, Hcut, append_assoc. by rewrite append_cons. }
    destruct (lastIndexOf "010" (post +:+ q)) as [e2|] eqn:Hq.
    + destruct (lastIndexOf_cut _ _ _ Hq) as [Hcut2 Hpost2].
      set (pre2 := String.substring 0 e2 (post +:+ q)) in *.
      set (post2 := substr_from (S e2) (post +:+ q)) in *.
      rewrite (stdout_cut q (set_buffer (Some post) st1) pre2 post2) by done.
      assert (Hall2 : b +:+ (p +:+ q)
                      = (pre +:+ String "010" pre2) +:+ String "010" post2).
      { rewrite Hall, Hcut2, !append_assoc. by rewrite !append_cons. }
      rewrite (stdout_cut (p +:+ q) st _ post2 Hall2 Hpost2).
      cbn [state_of effects_of fst snd].
      destruct (onOutput_set_buffer (Some post) pre2 st1) as [-> ->].
      destruct (onOutput_two_texts pre pre2 st) as [-> ->]. fold st1.
      split; [done|]. do 2 eexists. split_and!; [done..|].
      by rewrite app_assoc.
    + rewrite (stdout_uncut q (set_buffer (Some post) st1)) by done.
      rewrite (stdout_cut (p +:+ q) st pre (post +:+ q) Hall Hq).
      cbn [state_of effects_of fst snd buffer set_buffer js_str default].
      split; [done|]. do 2 eexists. split_and!; done.
  - (* the first chunk completes no line *)
    unfold tail_after_newline in Hheld. rewrite Hp in Hheld.
    rewrite (stdout_uncut p st Hp). fold b.
    rewrite (held_back_kept _ Hheld), (flushed_kept _ Hheld).
    cbn [state_of effects_of fst snd].
    rewrite !stdout_run. cbv zeta. fold b.
    cbn [buffer set_buffer js_str default]. change (id (b +:+ p)) with (b +:+ p).
    rewrite append_assoc.
    destruct (lastIndexOf "010" (b +:+ p +:+ q)) as [e|].
    + cbn [state_of effects_of fst snd].
      destruct (onOutput_set_buffer (Some (b +:+ p))
                  (String.substring 0 e (b +:+ p +:+ q)) st) as [-> ->].
      split; [done|]. do 2 eexists. split_and!; done.
    + cbn [state_of effects_of fst snd].
      split; [done|]. do 2 eexists. split_and!; done.
Qed.

(** ** The error stream *)

Lemma concat_text_app l1 l2 :
  concat_text (l1 ++ l2) = concat_text l1 +:+ concat_text l2.
Proof.
  induction l1 as [|x l1 IH]; [done|]. cbn [app concat_text foldr].
  fold (concat_text (l1 ++ l2)). fold (concat_text l1).
  by rewrite IH, append_assoc.
Qed.

Lemma forEach_log_run (lines : list string) st :
  Forall (λ line, lastIndexOf "010" line = None) lines →
  forEach lines (λ line, log "stderr" line) st =
    (tt, st, map (λ line, stderr_msg (line +:+ NL)) lines).
Proof.
  induction 1 as [|line lines Hline _ IH]; [done|].
  cbn [forEach]. erewrite bind_run by apply log_run. rewrite IH.
  cbn. by rewrite with_newline_line.
Qed.

(** [stderr] holds nothing back and loses nothing: the texts it puts on
    the stderr channel, one after the other, are the chunk it was given,
    after the text [errbuf] came with (the word undefined if it has no
    value yet, as on the first call); [errbuf] is empty afterwards. *)
Theorem stderr_forwards_everything data errbuf st :
  let '(errbuf', st', es) := stderr data errbuf st in
  errbuf' = Some EmptyString ∧ st' = st ∧
  ∃ texts, es = map stderr_msg texts ∧
           concat_text texts = js_str errbuf +:+ data.
Proof.
  unfold stderr. set (buf := js_str errbuf +:+ data).
  destruct (lastIndexOf "010" buf) as [e|] eqn:Hlast.
  - destruct (lastIndexOf_cut _ _ _ Hlast) as [Hcut Hrest].
    unfold onOutputStderr. rewrite forEach_log_run by apply split_pieces.
    set (pre := String.substring 0 e buf) in *.
    set (rest := substr_from (S e) buf) in *.
    assert (Hlines : concat_text (map (λ line, line +:+ NL) (split "010" pre))
                     = pre +:+ NL) by apply concat_split.
    destruct rest as [|c rest]; cbn [String.length Nat.eqb negb logNoNewLine emit tell].
    + split_and!; [done..|]. eexists. split; [by rewrite <- map_map|].
      rewrite Hlines, Hcut. done.
    + split_and!; [done..|].
      exists (map (λ line, line +:+ NL) (split "010" pre) ++ [String c rest]).
      split; [by rewrite map_app, map_map|].
      rewrite concat_text_app, Hlines, Hcut. cbn [concat_text foldr].
      by rewrite append_nil_r, append_assoc.
  - destruct buf as [|c buf]; cbn [String.length Nat.eqb negb logNoNewLine emit tell].
    + split_and!; [done..|]. by exists [].
    + split_and!; [done..|]. exists [String c buf]. split; [done|].
      cbn. by rewrite append_nil_r.
Qed.

(** ** No promise is settled twice *)

Lemma settled_promises_app es1 es2 :
  settled_promises (es1 ++ es2) = settled_promises es1 ++ settled_promises es2.
Proof. induction es1 as [|e es1 IH]; [done|]. destruct e; cbn; by rewrite ?IH. Qed.

Lemma settled_promises_emits es :
  Forall (λ e, is_settlement e = false) es → settled_promises es = [].
Proof. induction 1 as [|e es He _ IH]; [done|]. by destruct e. Qed.

Lemma not_settled p es :
  Forall (λ e, settles p e = false) es → p ∉ settled_promises es.
Proof.
  induction 1 as [|e es He _ IH]; [by apply not_elem_of_nil|].
  destruct e as [| |q node|q err]; cbn in *; try done;
    apply not_elem_of_cons; (split; [|done]);
    intros ->; by rewrite Nat.eqb_refl in He.
Qed.

Lemma settles_once_ret : settles_once (ret tt).
Proof.
  intros st Hst. cbn. split_and!; [done|constructor| |].
  - intros p Hp. by apply elem_of_nil in Hp.
  - intros p Hp. split; [done|]. apply not_elem_of_nil.
Qed.

Lemma settles_once_seq (m k : M unit) :
  settles_once m → settles_once k → settles_once (m ;; k).
Proof.
  intros Hm Hk st Hst. cbv zeta.
  rewrite seq_state, seq_effects, settled_promises_app.
  destruct (Hm st Hst) as (Hst1 & Hnd1 & Hall1 & Hold1).
  destruct (Hk _ Hst1) as (Hst2 & Hnd2 & Hall2 & Hold2).
  split_and!; [done| | |].
  - apply NoDup_app. split_and!; [done| |done].
    intros p Hp. by apply Hold2, Hall1.
  - intros p [Hp|Hp]%elem_of_app; [by apply Hold2, Hall1|by apply Hall2].
  - intros p Hp. destruct (Hold1 p Hp) as [Hp1 Hn1].
    destruct (Hold2 p Hp1) as [Hp2 Hn2]. split; [done|].
    by intros [?|?]%elem_of_app.
Qed.

Lemma settles_once_forEach {A} (f : A → M unit) l :
  (∀ x, settles_once (f x)) → settles_once (forEach l f).
Proof.
  intros Hf. induction l as [|x l IH]; [apply settles_once_ret|].
  cbn [forEach]. by apply settles_once_seq.
Qed.

Lemma shrinks_promises_sound st st' :
  shrinks st st' → promises_sound st → promises_sound st'.
Proof.
  intros Hs [Hm Hd]. split;
    [by eapply shrinks_promises_made|by eapply shrinks_promises_distinct].
Qed.

Lemma settled_promises_line line st :
  settled_promises (effects_of (onOutput_line line st)) =
    if couldBeOutput line then []
    else match pending st (parseMI line) with
         | Some (tok, h) => [h_promise h]
         | None => []
         end.
Proof.
  destruct (couldBeOutput line) eqn:Hc.
  - rewrite onOutput_line_passthrough by done. cbn. by destruct (occurs _ _).
  - rewrite onOutput_line_inband by done. cbv zeta.
    destruct (pending st (parseMI line)) as [[tok h]|];
      unfold effects_of; cbn [snd]; rewrite !settled_promises_app;
      rewrite (settled_promises_emits (records_effects _))
        by apply records_effects_emit;
      rewrite (settled_promises_emits (if debugOutput st then _ else _))
        by apply log_effects_emit.
    + unfold effects_in, run_handler.
      by destruct (is_error _), (h_suppressFailure h).
    + by destruct (is_error _).
Qed.

Lemma settles_once_line line : settles_once (onOutput_line line).
Proof.
  intros st Hst. cbv zeta.
  pose proof (onOutput_line_shrinks line st) as Hs.
  pose proof (onOutput_line_answers line st) as Hans.
  assert (Hold : ∀ p, settled_for_good p st →
            settled_for_good p (state_of (onOutput_line line st)) ∧
            p ∉ settled_promises (effects_of (onOutput_line line st))).
  { intros p Hp. split; [by eapply shrinks_settled_for_good|].
    by eapply not_settled, Forall_no_settle. }
  split_and!; [by eapply shrinks_promises_sound| | |done];
    rewrite settled_promises_line.
  - destruct (couldBeOutput line); [constructor|].
    destruct (pending st (parseMI line)) as [[tok h]|]; [|constructor].
    apply NoDup_singleton.
  - destruct (couldBeOutput line) eqn:Hc;
      [intros p Hp; by apply elem_of_nil in Hp|].
    destruct (pending st (parseMI line)) as [[tok h]|] eqn:Hpend;
      [|intros p Hp; by apply elem_of_nil in Hp].
    intros p ->%list_elem_of_singleton.
    rewrite onOutput_line_inband, Hpend by done. cbv zeta.
    unfold state_of. cbn [fst snd].
    apply pending_Some in Hpend as [_ Hh]. destruct Hst as [Hm Hd].
    split; fields; [by apply Hm in Hh|].
    intros tok' h' Hh' Heq.
    destruct (decide (tok' = tok)) as [->|Hne].
    + by rewrite lookup_delete_eq in Hh'.
    + rewrite lookup_delete_ne in Hh' by done.
      by pose proof (Hd _ _ _ _ Hh' Hh Heq).
Qed.

Lemma settles_once_stdout data : settles_once (stdout data).
Proof.
  intros st Hst. cbv zeta.
  pose proof (settles_once_forEach onOutput_line) as Hlines.
  assert (Hflush : ∀ rest, settled_promises (flushed rest) = []).
  { intros rest. unfold flushed. by destruct (flushes rest). }
  rewrite stdout_run. cbv zeta.
  destruct (lastIndexOf _ _) as [e|]; unfold state_of, effects_of; cbn [fst snd].
  - destruct (Hlines (split "010" (String.substring 0 e (js_str (buffer st) +:+ data)))
                (λ l, settles_once_line l) st Hst) as (H1 & H2 & H3 & H4).
    unfold onOutput. cbn [settled_promises].
    rewrite settled_promises_app, Hflush, app_nil_r.
    split_and!; [done|done| |].
    + intros p Hp. by destruct (H3 p Hp).
    + intros p Hp. destruct (H4 p Hp) as [[??] ?]. by split.
  - cbn [settled_promises]. rewrite Hflush. split_and!; [done|constructor| |].
    + intros p Hp. by apply elem_of_nil in Hp.
    + intros p Hp. split; [done|]. apply not_elem_of_nil.
Qed.

Lemma settles_once_perform a : settles_once (perform a).
Proof.
  destruct a as [c s|raw|data]; [| |apply settles_once_stdout].
  - intros st [Hm Hd]. cbv zeta.
    pose proof (perform_promises_made (SendCommand c s) st Hm) as Hm'.
    pose proof (perform_promises_distinct (SendCommand c s) st Hm Hd) as Hd'.
    assert (Hnone : settled_promises
                      (effects_of (perform (SendCommand c s) st)) = []).
    { rewrite perform_send_run, sendCommand_run. cbn [effects_of snd].
      by destruct (printCalls st). }
    rewrite Hnone. split_and!; [done|constructor| |].
    + intros p Hp. by apply elem_of_nil in Hp.
    + intros p Hp. split; [|apply not_elem_of_nil].
      by apply (perform_settled_for_good p (SendCommand c s)).
  - intros st Hst. cbv zeta. cbn [perform]. rewrite sendRaw_run.
    cbn [state_of effects_of fst snd].
    assert (Hnone : settled_promises
              ((if printCalls st
                then [Emit "msg" (MsgArgs "log" (with_newline ("=> " +:+ raw)))]
                else []) ++ [StdinWrite (raw +:+ NL)]) = [])
      by (by destruct (printCalls st)).
    rewrite Hnone. split_and!; [done|constructor| |].
    + intros p Hp. by apply elem_of_nil in Hp.
    + intros p Hp. split; [done|apply not_elem_of_nil].
Qed.

(** Whatever is sent to a new engine and whatever output reaches it, no
    promise of [sendCommand] is settled more than once. *)
Theorem no_promise_settled_twice pc dbg (actions : list Action) :
  NoDup (settled_promises (effects_of (perform_all actions (new_MI2 pc dbg)))).
Proof.
  pose proof (settles_once_forEach perform actions settles_once_perform) as H.
  destruct (new_MI2_invariants pc dbg) as (Hm & Hd & _).
  by destruct (H (new_MI2 pc dbg) (conj Hm Hd)) as (_ & Hnd & _).
Qed.

(** ** Replies nobody waits for *)

Lemma set_output_same st : set_output (output st) st = st.
Proof. by destruct st. Qed.

(** A record that answers no pending command, is no error and has no
    out-of-band record changes nothing and is not logged anywhere,
    whether it carries a token or not; only the debug echo, when
    [debugOutput] is set, shows it. The Unhandled log is never reached. *)
Theorem unanswered_result_is_dropped line st :
  couldBeOutput line = false →
  pending st (parseMI line) = None →
  is_error (parseMI line) = false →
  outOfBandRecord (parseMI line) = [] →
  onOutput_line line st =
    (tt, st,
     if debugOutput st
     then [Emit "msg" (MsgArgs "log"
             (with_newline ("GDB -> App: " +:+ JSON_stringify (parseMI line))))]
     else []).
Proof.
  intros Hc Hp He Hrec. rewrite onOutput_line_inband, Hp, He by done.
  cbv zeta. unfold all_stream, records_effects. rewrite Hrec.
  cbn [forallb map concat]. by rewrite !app_nil_r, set_output_same.
Qed.

(** ** The first run of digits *)

Lemma star_digits_all pos s :
  star_class is_digit pos s (λ e _, Some e) =
    Some (pos + String.length (leading_digits s))%nat.
Proof.
  revert pos. induction s as [|c s IH]; intros pos; cbn [star_class leading_digits].
  - cbn. f_equal. lia.
  - destruct (is_digit c); [|cbn; f_equal; lia].
    rewrite IH. cbn [String.length]. f_equal. lia.
Qed.

Lemma match_at_numRegex pos s :
  match_at numRegex pos s =
    match s with
    | String c s' =>
        if is_digit c then Some (pos + String.length (leading_digits s))%nat else None
    | EmptyString => None
    end.
Proof.
  unfold match_at, numRegex. cbn [run]. destruct s as [|c s]; [done|].
  cbn [leading_digits]. destruct (is_digit c); [|done].
  rewrite star_digits_all. cbn [String.length]. f_equal. lia.
Qed.

Lemma substring_leading_digits s :
  String.substring 0 (String.length (leading_digits s)) s = leading_digits s.
Proof.
  induction s as [|c s IH]; [done|]. cbn [leading_digits].
  destruct (is_digit c); [|done]. cbn. by rewrite IH.
Qed.

Lemma search_numRegex pos s :
  match search numRegex pos s with
  | Some (b, e) =>
      has_digit s = true ∧ (pos ≤ b)%nat ∧
      String.substring (b - pos) (e - b) s = first_digits s
  | None => has_digit s = false
  end.
Proof.
  revert pos. induction s as [|c s IH]; intros pos.
  - cbn [search]. by rewrite match_at_numRegex.
  - cbn [search]. rewrite match_at_numRegex. cbn [has_digit first_digits].
    destruct (is_digit c) eqn:Hc.
    + split_and!; [done|lia|].
      replace (pos - pos)%nat with 0%nat by lia.
      replace (pos + String.length (leading_digits (String c s)) - pos)%nat
        with (String.length (leading_digits (String c s))) by lia.
      apply substring_leading_digits.
    + specialize (IH (S pos)). destruct (search numRegex (S pos) s) as [[b e]|].
      * destruct IH as (Hd & Hle & Hsub). split_and!; [done|lia|].
        replace (b - pos)%nat with (S (b - S pos)) by lia. done.
      * done.
Qed.

(** [numRegex.exec(s)] is [null] exactly when [s] has no digit;
    otherwise its element 0 is the first run of digits of [s]. *)
Lemma exec_numRegex s :
  exec numRegex s = if has_digit s then Some (first_digits s) else None.
Proof.
  unfold exec. pose proof (search_numRegex 0 s) as H.
  destruct (search numRegex 0 s) as [[b e]|].
  - destruct H as (-> & _ & Hsub). by rewrite Nat.sub_0_r in Hsub; rewrite Hsub.
  - by rewrite H.
Qed.

Lemma leading_digits_all s : all_digits s = true → leading_digits s = s.
Proof.
  induction s as [|c s IH]; [done|]. cbn [all_digits leading_digits].
  destruct (is_digit c); [|done]. cbn. by intros ->%IH.
Qed.

Lemma leading_digits_length s :
  (String.length (leading_digits s) ≤ String.length s)%nat.
Proof.
  induction s as [|c s IH]; [done|]. cbn [leading_digits].
  destruct (is_digit c); cbn; lia.
Qed.

Lemma leading_digits_whole s :
  String.length (leading_digits s) = String.length s → all_digits s = true.
Proof.
  induction s as [|c s IH]; [done|]. cbn [leading_digits all_digits].
  destruct (is_digit c); cbn; [|done]. intros [= H]. by apply IH.
Qed.

Lemma first_digits_length s :
  String.length (first_digits s) = String.length s ↔
  all_digits s = true.
Proof.
  destruct s as [|c s]; [done|]. cbn [first_digits all_digits].
  destruct (is_digit c) eqn:Hc.
  - split.
    + intros H. apply leading_digits_whole in H. cbn [all_digits] in H.
      by rewrite Hc in H.
    + intros H. rewrite leading_digits_all; [done|]. cbn [all_digits].
      by rewrite Hc.
  - split; [|done]. intros H.
    assert (Hlen : ∀ t, (String.length (first_digits t) ≤ String.length t)%nat).
    { induction t as [|d t IHt]; [done|]. cbn [first_digits].
      destruct (is_digit d); [apply leading_digits_length|cbn; lia]. }
    specialize (Hlen s). cbn [String.length] in H. lia.
Qed.

Lemma breakpoint_location_cases breakpoint st :
  let cc := js_str (Breakpoint.countCondition breakpoint) in
  let target := location_target breakpoint in
  let warning :=
    stderr_msg
      (with_newline
         ("Unsupported break count expression: '" +:+ cc +:+
          "'. Only supports 'X' for breaking once after X times or '>X' for ignoring the first X breaks")) in
  breakpoint_location breakpoint st =
    if negb (truthy (Breakpoint.countCondition breakpoint)) then
      (inr target, st, [])
    else if bool_decide (first_char cc = Some ">"%char) then
      if has_digit (substr_from 1 cc)
      then (inr (("-i " +:+ first_digits (substr_from 1 cc) +:+ " ") +:+ target), st, [])
      else (inl TypeError, st, [])
    else if negb (has_digit cc) then (inl TypeError, st, [])
    else if negb (all_digits cc) then (inr ("-t " +:+ target), st, [warning])
    else if parseInt cc =? 0 then (inr target, st, [])
    else (inr (("-t -i " +:+ pretty (parseInt cc) +:+ " ") +:+ target), st, []).
Proof.
  cbv zeta. unfold breakpoint_location.
  destruct (truthy (Breakpoint.countCondition breakpoint)); [|done].
  cbn [negb]. set (cc := js_str (Breakpoint.countCondition breakpoint)).
  destruct (bool_decide (first_char cc = Some ">"%char)).
  - rewrite exec_numRegex. by destruct (has_digit (substr_from 1 cc)).
  - rewrite exec_numRegex. destruct (has_digit cc) eqn:Hd; [|done].
    cbn [negb].
    destruct (all_digits cc) eqn:Hall.
    + assert (Hfirst : first_digits cc = cc).
      { destruct cc as [|c cc']; [done|]. cbn [first_digits].
        cbn [all_digits] in Hall. apply andb_true_iff in Hall as [Hc Hrest].
        rewrite Hc. apply leading_digits_all. cbn [all_digits].
        by rewrite Hc, Hrest. }
      rewrite Hfirst, Nat.eqb_refl. cbn [negb].
      by destruct (parseInt cc =? 0).
    + assert (Hlen : Nat.eqb (String.length (first_digits cc)) (String.length cc)
                     = false).
      { apply Nat.eqb_neq. intros H%first_digits_length. congruence. }
      rewrite Hlen. done.
Qed.

(** The location argument for every count condition, without the
    regular expression. A count condition that is absent or empty gives
    no flag. One led by [>] gives [-i] with the first run of digits
    after it. Another one gives [-t -i] with its value if it is all
    digits and not zero, no flag if it is zero, and [-t] with a warning
    if it is not all digits. In both cases a count condition without any
    digit makes the promise executor throw, and then nothing is logged
    for it. The value of an all-digit count condition is taken up to
    2^53: up to there the number the code computes with is the exact
    value and prints as its decimal digits. *)
Theorem breakpoint_location_read breakpoint st :
  let cc := js_str (Breakpoint.countCondition breakpoint) in
  let target := location_target breakpoint in
  let warning :=
    stderr_msg
      (with_newline
         ("Unsupported break count expression: '" +:+ cc +:+
          "'. Only supports 'X' for breaking once after X times or '>X' for ignoring the first X breaks")) in
  (all_digits cc = true → parseInt cc ≤ MAX_SAFE) →
  breakpoint_location breakpoint st =
    if negb (truthy (Breakpoint.countCondition breakpoint)) then
      (inr target, st, [])
    else if bool_decide (first_char cc = Some ">"%char) then
      if has_digit (substr_from 1 cc)
      then (inr (("-i " +:+ first_digits (substr_from 1 cc) +:+ " ") +:+ target), st, [])
      else (inl TypeError, st, [])
    else if negb (has_digit cc) then (inl TypeError, st, [])
    else if negb (all_digits cc) then (inr ("-t " +:+ target), st, [warning])
    else if parseInt cc =? 0 then (inr target, st, [])
    else (inr (("-t -i " +:+ pretty (parseInt cc) +:+ " ") +:+ target), st, []).
Proof. intros cc target warning _. apply breakpoint_location_cases. Qed.

Lemma addBreakPoint_value breakpoint st :
  value_of (addBreakPoint breakpoint st) =
    match value_of (breakpoint_location breakpoint st) with
    | inl e => inl e
    | inr _ => inr (promises (state_of (breakpoint_location breakpoint st)))
    end ∧
  stdin_lines (effects_of (addBreakPoint breakpoint st)) =
    stdin_lines (effects_of (breakpoint_location breakpoint st)) ++
    match value_of (breakpoint_location breakpoint st) with
    | inl e => []
    | inr location =>
        [wire_line (currentToken (state_of (breakpoint_location breakpoint st)))
           ("break-insert " +:+ location)]
    end.
Proof.
  rewrite addBreakPoint_run.
  destruct (breakpoint_location breakpoint st) as [[[e|location] st1] es];
    cbn [value_of state_of effects_of fst snd stdin_lines].
  - by rewrite app_nil_r.
  - rewrite sendCommand_run. cbn [value_of state_of effects_of fst snd].
    rewrite !stdin_lines_app. split; [done|]. f_equal.
    by destruct (printCalls st1).
Qed.

(** [addBreakPoint] fails without sending anything exactly when there
    is a count condition and it has no digit (after the [>], if it is
    led by one); in every other case it writes exactly one line, a
    [break-insert] command. *)
Theorem addBreakPoint_throws_iff breakpoint st :
  let cc := js_str (Breakpoint.countCondition breakpoint) in
  let digits_in :=
    if bool_decide (first_char cc = Some ">"%char) then substr_from 1 cc else cc in
  let throws := truthy (Breakpoint.countCondition breakpoint) && negb (has_digit digits_in) in
  (value_of (addBreakPoint breakpoint st) = inl TypeError ↔ throws = true) ∧
  length (stdin_lines (effects_of (addBreakPoint breakpoint st))) =
    (if throws then 0 else 1)%nat ∧
  (throws = true → state_of (addBreakPoint breakpoint st) = st).
Proof.
  cbv zeta. destruct (addBreakPoint_value breakpoint st) as [Hv Hl].
  rewrite Hv, Hl. clear Hv Hl.
  assert (Hst : ∀ e, value_of (breakpoint_location breakpoint st) = inl e →
                     state_of (addBreakPoint breakpoint st) = st).
  { intros e. rewrite addBreakPoint_run, breakpoint_location_cases. cbv zeta.
    repeat case_match; cbn; congruence. }
  revert Hst. rewrite breakpoint_location_cases. cbv zeta.
  destruct (truthy (Breakpoint.countCondition breakpoint)); cbn [negb andb];
    [|intros _; by split_and!].
  destruct (bool_decide _).
  - destruct (has_digit _); cbn; intros Hst; split_and!; try done.
    intros _. by eapply Hst.
  - destruct (has_digit _); cbn [negb]; [|intros Hst; split_and!; try done;
                                           intros _; by eapply Hst].
    destruct (all_digits _); cbn [negb]; [destruct (_ =? _)|];
      intros _; by split_and!.
Qed.

(** ** The command surface *)

(** User input that begins with a dash goes out as it is behind the
    token (the dash of the wire format is its own); any other input is
    wrapped, unescaped, in a console command. One line either way. *)
Theorem sendUserInput_wire command st :
  stdin_lines (effects_of (sendUserInput command st)) =
    [if bool_decide (first_char command = Some "-"%char)
     then (pretty (currentToken st) +:+ command) +:+ NL
     else wire_line (currentToken st)
            ("interpreter-exec console " +:+ DQ +:+ command +:+ DQ)] ∧
  value_of (sendUserInput command st) = promises st.
Proof.
  unfold sendUserInput. case_bool_decide as Hc; rewrite sendCommand_run;
    cbn [effects_of value_of fst snd]; rewrite stdin_lines_app;
    (split; [|done]).
  - destruct command as [|c rest]; [done|]. injection Hc as ->.
    rewrite substr_from_1. by destruct (printCalls st).
  - by destruct (printCalls st).
Qed.

(** [removeBreakpoints] writes to the subprocess exactly when the list
    is not empty: an empty list resolves with [true] at once and leaves
    the engine as it was; any other list sends one [break-delete] with
    the numbers separated by spaces. *)
Theorem removeBreakpoints_empty_sends_nothing (breakpoints : list N) st :
  let r := removeBreakpoints breakpoints st in
  (breakpoints = [] →
   value_of r = inl true ∧ state_of r = st ∧ stdin_lines (effects_of r) = []) ∧
  (breakpoints ≠ [] →
   value_of r = inr (promises st) ∧
   stdin_lines (effects_of r) =
     [wire_line (currentToken st)
        ("break-delete " +:+ join " " (map pretty breakpoints))]).
Proof.
  cbv zeta. unfold removeBreakpoints. erewrite bind_run by apply log_run.
  split.
  - by intros ->.
  - intros Hne. destruct breakpoints as [|b bs]; [done|].
    cbn [length Nat.eqb]. rewrite bind_unfold, sendCommand_run.
    cbn [value_of effects_of fst snd stdin_lines app ret].
    rewrite !stdin_lines_app. split; [done|]. by destruct (printCalls st).
Qed.


(** ** Escaping *)

Lemma replace_char_app c by_ (a b : string) :
  replace_char c by_ (a +:+ b) = replace_char c by_ a +:+ replace_char c by_ b.
Proof.
  induction a as [|d a IH]; [done|]. rewrite append_cons. cbn [replace_char].
  rewrite IH. destruct (Ascii.eqb d c); [|done]. by rewrite append_assoc.
Qed.

Lemma escape_cons c s :
  escape (String c s) =
    (if Ascii.eqb c "\" then "\\"
     else if Ascii.eqb c "034" then "\" +:+ DQ
     else String c EmptyString) +:+ escape s.
Proof.
  unfold escape. cbn [replace_char].
  destruct (Ascii.eqb_spec c "\") as [->|Hb].
  - by rewrite replace_char_app.
  - cbn [replace_char]. by destruct (Ascii.eqb_spec c "034").
Qed.

(** What [escape] makes of a text, put in double quotes, reads back as
    that text whatever follows the closing quote: no character of the
    text can end the string early. *)
Theorem escape_unquote s rest :
  unquote (escape s +:+ DQ +:+ rest) = Some (s, rest).
Proof.
  induction s as [|c s IH]; [done|]. rewrite escape_cons.
  change ("\" +:+ DQ) with (String "\" (String "034" EmptyString)).
  change "\\" with (String "\" (String "\" EmptyString)).
  rewrite append_assoc, ?append_cons. change (EmptyString +:+ ?x) with x.
  destruct (Ascii.eqb_spec c "\") as [->|Hb].
  - rewrite ?append_cons. change (EmptyString +:+ ?x) with x.
    cbn [unquote]. rewrite IH. by vm_compute.
  - destruct (Ascii.eqb_spec c "034") as [->|Hq].
    + rewrite ?append_cons. change (EmptyString +:+ ?x) with x.
      cbn [unquote]. rewrite IH. by vm_compute.
    + rewrite ?append_cons. change (EmptyString +:+ ?x) with x.
      cbn [unquote]. rewrite IH.
      destruct (Ascii.eqb_spec c "034"); [done|].
      by destruct (Ascii.eqb_spec c "\").
Qed.

(** ** Logging *)

(** The text [log] emits always ends with a newline; a message that
    ends with one is emitted as it is, any other gets one, so logging
    the logged text again changes nothing. *)
Theorem log_ends_with_newline type msg st :
  ∃ text,
    log type msg st = (tt, st, [Emit "msg" (MsgArgs type text)]) ∧
    last_char text = Some "010"%char ∧
    (last_char msg = Some "010"%char → text = msg) ∧
    (last_char msg ≠ Some "010"%char → text = msg +:+ NL) ∧
    with_newline text = text.
Proof.
  exists (with_newline msg). split; [done|]. unfold with_newline, NL.
  destruct (last_char msg) as [c|] eqn:Hlast.
  - destruct (Ascii.eqb_spec c "010") as [->|Hne].
    + rewrite Hlast. split_and!; done.
    + rewrite last_char_append_char, Ascii.eqb_refl.
      split_and!; [done| |done..]. intros [=]. done.
  - rewrite last_char_append_char, Ascii.eqb_refl. split_and!; done.
Qed.

(** ** Held back for good *)

Lemma begins_with_one_of_app set s t :
  begins_with_one_of set s = true → begins_with_one_of set (s +:+ t) = true.
Proof. by destruct s. Qed.

Lemma has_one_of_app set s t :
  has_one_of set (s +:+ t) = has_one_of set s || has_one_of set t.
Proof.
  induction s as [|c s IH]; [done|]. rewrite append_cons. cbn [has_one_of].
  by rewrite IH, orb_assoc.
Qed.

Lemma skip_digits_app set s t :
  begins_with_one_of set (skip_digits s) = true →
  begins_with_one_of set (skip_digits (s +:+ t)) = true.
Proof.
  induction s as [|c s IH]; [done|]. rewrite append_cons. cbn [skip_digits].
  destruct (is_digit c); [done|]. intros H. by rewrite <- append_cons.
Qed.

Lemma strip_prefix_app p s t r :
  strip_prefix p s = Some r → strip_prefix p (s +:+ t) = Some (r +:+ t).
Proof.
  revert s. induction p as [|a p IH]; intros s; cbn [strip_prefix].
  - by intros [= ->].
  - destruct s as [|b s]; [done|]. rewrite append_cons.
    destruct (Ascii.eqb a b); [apply IH|done].
Qed.

(** More text never turns the beginning of an in-band record into
    program output: what [stdout] holds back stays held back until its
    line is complete. *)
Theorem in_band_extends s t :
  couldBeOutput s = false → couldBeOutput (s +:+ t) = false.
Proof.
  rewrite !couldBeOutput_in_band. intros H%negb_false_iff. apply negb_false_iff.
  unfold in_band, token_then_one_of in *. rewrite has_one_of_app.
  apply orb_true_iff in H as [H|H]; [|by rewrite H, !orb_true_r].
  apply orb_true_iff in H as [H|H].
  - by rewrite (skip_digits_app _ _ _ H).
  - destruct (strip_prefix "undefined" s) as [r|] eqn:E; [|done].
    rewrite (strip_prefix_app _ _ t _ E), (begins_with_one_of_app _ _ _ H).
    by rewrite orb_true_r.
Qed.

(** ** Connecting *)

Lemma wire_lines_from_app tok l1 l2 :
  wire_lines_from tok (l1 ++ l2) =
    wire_lines_from tok l1 ++ wire_lines_from (tok + N.of_nat (length l1)) l2.
Proof.
  revert tok. induction l1 as [|c l1 IH]; intros tok.
  - cbn. by rewrite N.add_0_r.
  - cbn [app wire_lines_from length]. rewrite IH. do 3 f_equal. lia.
Qed.

Lemma send_each_run (commands : list string) st :
  currentToken st + N.of_nat (length commands) ≤ MAX_SAFE →
  let r := forEach commands (λ c, sendCommand c false ;; ret tt) st in
  stdin_lines (effects_of r) = wire_lines_from (currentToken st) commands ∧
  currentToken (state_of r) = currentToken st + N.of_nat (length commands) ∧
  promises (state_of r) = (promises st + length commands)%nat ∧
  (∀ tok, tok < currentToken st → handlers (state_of r) !! tok = handlers st !! tok) ∧
  (∀ (i : nat) command, commands !! i = Some command →
     handlers (state_of r) !! (currentToken st + N.of_nat i) =
       Some {| h_command := command; h_suppressFailure := false;
               h_promise := (promises st + i)%nat |}).
Proof.
  cbv zeta. revert st. induction commands as [|c commands IH]; intros st Hle.
  - cbn. split_and!; [done|lia|lia|done|done].
  - cbn [forEach]. rewrite seq_state, seq_effects, stdin_lines_app.
    assert (Hone : (sendCommand c false ;; ret tt) st
                   = (tt, state_of (sendCommand c false st),
                      effects_of (sendCommand c false st))).
    { rewrite bind_unfold. destruct (sendCommand c false st) as [[p st1] e1].
      cbn. by rewrite app_nil_r. }
    rewrite Hone, sendCommand_run. cbn [state_of effects_of fst snd].
    assert (Hincr : js_incr (currentToken st) = currentToken st + 1).
    { cbn [length] in Hle. unfold js_incr.
      destruct (N.ltb_spec (currentToken st) MAX_SAFE); lia. }
    set (st1 := set_handlers _ _).
    assert (Htok1 : currentToken st1 = currentToken st + 1).
    { unfold st1. fields. exact Hincr. }
    assert (Hprom1 : promises st1 = S (promises st)).
    { unfold st1. by fields. }
    assert (Hh1 : ∀ tok, tok < currentToken st →
                         handlers st1 !! tok = handlers st !! tok).
    { intros tok Htok. unfold st1. fields. apply lookup_insert_ne. lia. }
    assert (Hh0 : handlers st1 !! currentToken st =
                  Some {| h_command := c; h_suppressFailure := false;
                          h_promise := promises st |}).
    { unfold st1. fields. by rewrite lookup_insert_eq. }
    destruct (IH st1) as (H1 & H2 & H3 & H4 & H5).
    { rewrite Htok1. cbn [length] in Hle. lia. }
    rewrite H1, H2, H3, Htok1, Hprom1. cbn [length wire_lines_from]. split_and!.
    + rewrite stdin_lines_app. by destruct (printCalls st).
    + lia.
    + lia.
    + intros tok Htok. rewrite H4 by lia. by apply Hh1.
    + intros [|i] command Hi.
      * cbn in Hi. injection Hi as <-. rewrite N.add_0_r, Nat.add_0_r.
        rewrite H4 by lia. exact Hh0.
      * cbn in Hi. specialize (H5 i command Hi).
        rewrite Htok1, Hprom1 in H5.
        replace (currentToken st + N.of_nat (S i))
          with (currentToken st + 1 + N.of_nat i) by lia.
        replace (promises st + S i)%nat with (S (promises st) + i)%nat by lia.
        exact H5.
Qed.

(** [connect] on an engine that can still count sends the async-mode
    command, then the given commands in their order, then the sections
    query, one line each, under consecutive tokens starting at the
    current one (1, 2, ... on a new engine). Each is pending afterwards
    under its token with a promise of its own, and the first, and only
    the first, with failure suppression. *)
Theorem connect_wire_lines (commands : list string) st :
  currentToken st + N.of_nat (length commands) + 2 ≤ MAX_SAFE →
  let r := connect commands st in
  let sent := "gdb-set target-async on" :: commands ++
              ["interpreter-exec console " +:+ DQ +:+ "info file" +:+ DQ] in
  stdin_lines (effects_of r) = wire_lines_from (currentToken st) sent ∧
  currentToken (state_of r) = currentToken st + N.of_nat (length sent) ∧
  ∀ (i : nat) command, sent !! i = Some command →
    handlers (state_of r) !! (currentToken st + N.of_nat i) =
      Some {| h_command := command;
              h_suppressFailure := bool_decide (i = 0%nat);
              h_promise := (promises st + i)%nat |}.
Proof.
  intros Hle. cbv zeta. unfold connect, getSections.
  assert (Hincr : ∀ n, n < MAX_SAFE → js_incr n = n + 1).
  { intros n Hn. unfold js_incr. destruct (N.ltb_spec n MAX_SAFE); lia. }
  rewrite bind_unfold, sendCommand_run.
  set (st1 := set_handlers _ _).
  assert (Htok1 : currentToken st1 = currentToken st + 1).
  { unfold st1. fields. apply Hincr. lia. }
  assert (Hprom1 : promises st1 = S (promises st)).
  { unfold st1. by fields. }
  assert (Hh0 : handlers st1 !! currentToken st =
                Some {| h_command := "gdb-set target-async on";
                        h_suppressFailure := true; h_promise := promises st |}).
  { unfold st1. fields. by rewrite lookup_insert_eq. }
  rewrite bind_unfold.
  destruct (send_each_run commands st1) as (H1 & H2 & H3 & H4 & H5); [lia|].
  destruct (forEach commands _ st1) as [[u st2] e2].
  cbn [state_of effects_of fst snd] in *.
  rewrite bind_unfold, sendCommand_run.
  cbn [state_of effects_of fst snd ret]. fields.
  rewrite !stdin_lines_app, H1, Htok1, H2, Htok1.
  cbn [wire_lines_from]. rewrite wire_lines_from_app. cbn [wire_lines_from].
  rewrite Hincr by lia. split_and!.
  - destruct (printCalls st), (printCalls st2); cbn; by rewrite ?app_nil_r.
  - cbn [length]. rewrite length_app. cbn [length]. lia.
  - intros [|i] command Hi.
    + cbn in Hi. injection Hi as <-. rewrite N.add_0_r, Nat.add_0_r.
      rewrite lookup_insert_ne by lia. rewrite H4 by lia. exact Hh0.
    + cbn [lookup list_lookup] in Hi.
      change (bool_decide (S i = 0%nat)) with false.
      apply lookup_app_Some in Hi as [Hi|[Hlen Hi]].
      * rewrite lookup_insert_ne
          by (apply lookup_lt_Some in Hi; lia).
        specialize (H5 i command Hi). rewrite Htok1, Hprom1 in H5.
        replace (currentToken st + N.of_nat (S i))
          with (currentToken st + 1 + N.of_nat i) by lia.
        replace (promises st + S i)%nat with (S (promises st) + i)%nat by lia.
        exact H5.
      * apply list_lookup_singleton_Some in Hi as [Hi <-].
        assert (i = length commands) as -> by lia.
        replace (currentToken st + N.of_nat (S (length commands)))
          with (currentToken st + 1 + N.of_nat (length commands)) by lia.
        rewrite lookup_insert_eq. rewrite H3, Hprom1.
        do 2 f_equal. lia.
Qed.

End Engine.

(** ** Examples

    The engine run with the parser for flat records. *)

Import FlatParser.

(** C1 at work: the second command of a session goes out under token 2. *)
Lemma sendCommand_wire_line_witness :
  1 + count_sends [SendCommand "gdb-set target-async on" true;
                   Stdout ("1^done" +:+ NL)] < MAX_SAFE ∧
  stdin_lines
    (effects_of
       (sendCommand "break-insert main" false
          (state_of
             (perform_all parseMI stringify
                [SendCommand "gdb-set target-async on" true;
                 Stdout ("1^done" +:+ NL)]
                (new_MI2 false false))))) =
    ["2-break-insert main" +:+ NL].
Proof.
  assert (H : 1 + count_sends [SendCommand "gdb-set target-async on" true;
                               Stdout ("1^done" +:+ NL)] < MAX_SAFE)
    by (by vm_compute).
  split; [exact H|].
  destruct (sendCommand_wire_line parseMI stringify false false _
              "break-insert main" false H) as (_ & Hline & _).
  exact Hline.
Defined.

(** C2 at work: the reply [1^done] settles the first command; the same
    line again, and an error with the same token, settle nothing. *)
Lemma reply_settles_once_witness :
  let st := state_of (perform_all parseMI stringify
                        [SendCommand "info" false] (new_MI2 false false)) in
  let h := {| h_command := "info"; h_suppressFailure := false; h_promise := 0%nat |} in
  (couldBeOutput "1^done" = false ∧
   token (parseMI "1^done") = Some 1 ∧
   handlers st !! 1 = Some h) ∧
  Forall (λ e, settles 0%nat e = false)
    (effects_of
       (perform_all parseMI stringify
          [Stdout ("1^done" +:+ NL); Stdout ("1^error" +:+ NL)]
          (state_of (onOutput_line parseMI stringify "1^done" st)))).
Proof.
  cbv zeta.
  assert (H1 : couldBeOutput "1^done" = false) by (by vm_compute).
  assert (H2 : token (parseMI "1^done") = Some 1) by (by vm_compute).
  assert (H3 : handlers
                 (state_of (perform_all parseMI stringify
                              [SendCommand "info" false] (new_MI2 false false)))
               !! 1
               = Some {| h_command := "info"; h_suppressFailure := false;
                         h_promise := 0%nat |}) by (by vm_compute).
  split; [done|].
  destruct (reply_settles_once parseMI stringify false false
              [SendCommand "info" false]
              [Stdout ("1^done" +:+ NL); Stdout ("1^error" +:+ NL)]
              "1^done" 1 _ H1 H2 H3) as (_ & _ & _ & Hlater).
  exact Hlater.
Defined.

(** C3 at work: an error reply, no suppression, rejects the command. *)
Lemma error_reply_rejects_witness :
  let st := state_of (perform_all parseMI stringify
                        [SendCommand "info" false] (new_MI2 false false)) in
  let h := {| h_command := "info"; h_suppressFailure := false; h_promise := 0%nat |} in
  let line := "1^error,msg=" +:+ DQ +:+ "No symbol" +:+ DQ in
  (couldBeOutput line = false ∧
   token (parseMI line) = Some 1 ∧
   handlers st !! 1 = Some h) ∧
  Exists (λ e, rejects 0%nat e = true)
    (effects_of (onOutput_line parseMI stringify line st)).
Proof.
  cbv zeta.
  set (st := state_of (perform_all parseMI stringify
                         [SendCommand "info" false] (new_MI2 false false))).
  set (h := {| h_command := "info"; h_suppressFailure := false; h_promise := 0%nat |}).
  set (line := "1^error,msg=" +:+ DQ +:+ "No symbol" +:+ DQ).
  assert (H1 : couldBeOutput line = false) by (by vm_compute).
  assert (H2 : token (parseMI line) = Some 1) by (by vm_compute).
  assert (H3 : handlers st !! 1 = Some h) by (by vm_compute).
  split; [done|].
  destruct (error_reply_rejects parseMI stringify st line 1 h H1 H2 H3)
    as (Hiff & _).
  apply Hiff. split; by vm_compute.
Defined.


(** C7 at work: a breakpoint stop. *)
Lemma stopped_record_events_witness :
  let rec := {| isStream := false; type := "exec";
                asyncClass := Some "stopped"; content := EmptyString |} in
  let parsed := parseMI ("*stopped,reason=" +:+ DQ +:+ "breakpoint-hit" +:+ DQ) in
  (isStream rec = false ∧ type rec = "exec" ∧ asyncClass rec = Some "stopped") ∧
  count_event "generic-stopped"
    (effects_of (onOutput_record stringify parsed rec (new_MI2 false false))) = 1%nat.
Proof.
  cbv zeta. split; [done|].
  destruct (stopped_record_events stringify
              (parseMI ("*stopped,reason=" +:+ DQ +:+ "breakpoint-hit" +:+ DQ))
              {| isStream := false; type := "exec";
                 asyncClass := Some "stopped"; content := EmptyString |}
              (new_MI2 false false) eq_refl eq_refl eq_refl) as (_ & Hcount & _).
  exact Hcount.
Defined.

(** C8 at work: stream text, then the reply that takes it along. *)
Lemma unattached_output_witness :
  let st := state_of (perform_all parseMI stringify
                        [SendCommand "info" false;
                         Stdout ("(gdb) " +:+ NL);
                         Stdout (console_line "x" +:+ NL)] (new_MI2 false false)) in
  output st = ["x"] ∧
  delivered (effects_of (onOutput_line parseMI stringify "1^done" st)) =
    [(0%nat, ["x"])] ∧
  output (state_of (onOutput_line parseMI stringify "1^done" st)) = [].
Proof.
  cbv zeta.
  set (st := state_of (perform_all parseMI stringify
                         [SendCommand "info" false;
                          Stdout ("(gdb) " +:+ NL);
                          Stdout (console_line "x" +:+ NL)] (new_MI2 false false))).
  destruct (unattached_output parseMI stringify st "1^done") as (_ & _ & _ & H).
  destruct (H ltac:(by vm_compute) ltac:(by vm_compute) 1
              {| h_command := "info"; h_suppressFailure := false; h_promise := 0%nat |}
              ltac:(by vm_compute)) as [Hout Hdel].
  split_and!; [by vm_compute|exact Hdel|exact Hout].
Defined.

(** C9 at work: an error nobody waits for. *)
Lemma unanswered_error_is_logged_witness :
  let line := "5^error,msg=" +:+ DQ +:+ "boom" +:+ DQ in
  let st := new_MI2 false false in
  (couldBeOutput line = false ∧ is_error (parseMI line) = true ∧
   pending st (parseMI line) = None) ∧
  filter (λ e, is_settlement e = true)
    (effects_of (onOutput_line parseMI stringify line st)) = [] ∧
  handlers (state_of (onOutput_line parseMI stringify line st)) = handlers st.
Proof.
  cbv zeta.
  set (line := "5^error,msg=" +:+ DQ +:+ "boom" +:+ DQ).
  assert (H1 : couldBeOutput line = false) by (by vm_compute).
  assert (H2 : is_error (parseMI line) = true) by (by vm_compute).
  assert (H3 : pending (new_MI2 false false) (parseMI line) = None) by (by vm_compute).
  split; [done|].
  destruct (unanswered_error_is_logged parseMI stringify (new_MI2 false false)
              line H1 H2 H3) as (_ & Hnone & Hsame).
  by split.
Defined.

(** ** Where the specification's words and the code part *)

(** C3, the counterexample: the reply [1^error,msg=] with empty quotes
    has a msg field, the empty string; the failure does not carry it but
    the literal. *)
Lemma error_message_of_empty_msg :
  let line := "1^error,msg=" +:+ DQ +:+ DQ in
  let es := effects_of
              (perform_all parseMI stringify
                 [SendCommand "info" false; Stdout ("(gdb) " +:+ NL);
                  Stdout (line +:+ NL)]
                 (new_MI2 false false)) in
  result (parseMI line) "msg" = Some EmptyString ∧
  failures es = [(0%nat, {| message := "Internal error"; source := "info" |})] ∧
  failures es ≠
    [(0%nat, {| message := present_or (result (parseMI line) "msg") "Internal error";
                source := "info" |})].
Proof. cbv zeta. split_and!; [by vm_compute..|]. vm_compute. congruence. Qed.

(** C4, the counterexample: the reply [1^done] is in-band for the code,
    as it must be, though no stream marker leads it and no [* + =]
    follows its token. *)
Lemma token_before_result_marker :
  couldBeOutput "1^done" = false ∧ in_band_leading "1^done" = false ∧
  couldBeOutput "a@b" = false ∧ in_band_leading "a@b" = false.
Proof. by vm_compute. Qed.


(** C8, the counterexample: a command, a prompt, stream text x, a thread
    notification, then the reply. No promise was resolved before, x went
    to the console, and the record the promise resolves with carries
    nothing. *)
Lemma notification_drops_stream_text :
  let es := effects_of
              (perform_all parseMI stringify
                 [SendCommand "info" false;
                  Stdout ("(gdb) " +:+ NL);
                  Stdout (console_line "x" +:+ NL);
                  Stdout ("=thread-created,id=" +:+ DQ +:+ "1" +:+ DQ +:+ NL);
                  Stdout ("1^done" +:+ NL)]
                 (new_MI2 false false)) in
  channel_lines "console" es = ["x" +:+ NL] ∧
  delivered es = [(0%nat, [])] ∧
  delivered es ≠ [(0%nat, ["x"])].
Proof. cbv zeta. split_and!; [by vm_compute..|]. vm_compute. congruence. Qed.

(** C9, the counterexample: an error with an empty msg field that
    answers nothing is logged as the whole line, not as its msg. *)
Lemma unanswered_error_of_empty_msg :
  let line := "5^error,msg=" +:+ DQ +:+ DQ in
  let es := effects_of (onOutput_line parseMI stringify line (new_MI2 false false)) in
  result (parseMI line) "msg" = Some EmptyString ∧
  channel_lines "stderr" es = [line +:+ NL] ∧
  channel_lines "stderr" es ≠
    [with_newline (present_or (result (parseMI line) "msg") line)].
Proof. cbv zeta. split_and!; [by vm_compute..|]. vm_compute. congruence. Qed.

(** ** More of the engine at work *)

(** Chunks at work: the reply [1^done] cut after its fourth byte. *)
Lemma stdout_chunks_compose_witness :
  let st := state_of (stdout parseMI stringify ("(gdb) " +:+ NL) (new_MI2 false false)) in
  flushes (tail_after_newline (js_str (buffer st) +:+ "1^do")) = false ∧
  state_of (stdout parseMI stringify ("ne" +:+ NL)
              (state_of (stdout parseMI stringify "1^do" st))) =
    state_of (stdout parseMI stringify ("1^do" +:+ ("ne" +:+ NL)) st).
Proof.
  cbv zeta.
  set (st := state_of (stdout parseMI stringify ("(gdb) " +:+ NL) (new_MI2 false false))).
  assert (H : flushes (tail_after_newline (js_str (buffer st) +:+ "1^do")) = false)
    by (by vm_compute).
  split; [exact H|].
  destruct (stdout_chunks_compose parseMI stringify "1^do" ("ne" +:+ NL) st H)
    as (Hstate & _).
  exact Hstate.
Defined.

(** A reply nobody waits for, at work. *)
Lemma unanswered_result_is_dropped_witness :
  let st := new_MI2 false false in
  (couldBeOutput "7^done" = false ∧ pending st (parseMI "7^done") = None ∧
   is_error (parseMI "7^done") = false ∧ outOfBandRecord (parseMI "7^done") = []) ∧
  onOutput_line parseMI stringify "7^done" st = (tt, st, []).
Proof.
  cbv zeta.
  assert (H1 : couldBeOutput "7^done" = false) by (by vm_compute).
  assert (H2 : pending (new_MI2 false false) (parseMI "7^done") = None)
    by (by vm_compute).
  assert (H3 : is_error (parseMI "7^done") = false) by (by vm_compute).
  assert (H4 : outOfBandRecord (parseMI "7^done") = []) by (by vm_compute).
  split; [done|].
  exact (unanswered_result_is_dropped parseMI stringify "7^done"
           (new_MI2 false false) H1 H2 H3 H4).
Defined.

(** A count of five at work. *)
Lemma breakpoint_location_read_witness :
  let breakpoint :=
    {| Breakpoint.file := Some "main.c"; Breakpoint.line := 12;
       Breakpoint.raw := None; Breakpoint.condition := None;
       Breakpoint.countCondition := Some "5" |} in
  (all_digits "5" = true → parseInt "5" ≤ MAX_SAFE) ∧
  breakpoint_location breakpoint (new_MI2 false false) =
    (inr ("-t -i 5 " +:+ DQ +:+ "main.c:12" +:+ DQ), new_MI2 false false, []).
Proof.
  cbv zeta.
  assert (H : all_digits "5" = true → parseInt "5" ≤ MAX_SAFE)
    by (intros _; by vm_compute).
  split; [exact H|].
  exact (breakpoint_location_read
           {| Breakpoint.file := Some "main.c"; Breakpoint.line := 12;
              Breakpoint.raw := None; Breakpoint.condition := None;
              Breakpoint.countCondition := Some "5" |}
           (new_MI2 false false) H).
Defined.

(** The beginning of a stop record stays in-band as the record grows. *)
Lemma in_band_extends_witness :
  couldBeOutput "12*sto" = false ∧ couldBeOutput ("12*sto" +:+ "pped") = false.
Proof.
  assert (H : couldBeOutput "12*sto" = false) by (by vm_compute).
  split; [exact H|]. exact (in_band_extends "12*sto" "pped" H).
Defined.

(** Connecting with one setup command: tokens 1, 2 and 3. *)
Lemma connect_wire_lines_witness :
  currentToken (new_MI2 false false) + N.of_nat (length ["break-insert main"]) + 2
    ≤ MAX_SAFE ∧
  stdin_lines (effects_of (connect ["break-insert main"] (new_MI2 false false))) =
    ["1-gdb-set target-async on" +:+ NL;
     "2-break-insert main" +:+ NL;
     "3-interpreter-exec console " +:+ DQ +:+ "info file" +:+ DQ +:+ NL].
Proof.
  assert (H : currentToken (new_MI2 false false)
              + N.of_nat (length ["break-insert main"]) + 2 ≤ MAX_SAFE)
    by (by vm_compute).
  split; [exact H|].
  destruct (connect_wire_lines ["break-insert main"] (new_MI2 false false) H)
    as (Hlines & _).
  exact Hlines.
Defined.
